(** * type-safe-json-decoder: the decoders of [src/index.js] and their properties

    The development embeds the compiled module [dist/src/index.js]: the
    location renderer ([pushLocation], [escapeKey]), the error constructor
    ([decoderError], [prettyPrint]) and the decoder combinators.  A decoder
    is the function it wraps, from an input value and a location to an
    outcome; a JavaScript [throw] is the [Throw] outcome.

    Modelling boundary.
    - A JavaScript string is a [string] whose characters are its code
      units; the model covers the code units below 256.
    - A number is an integer ([Z]); [num_to_string] is the decimal text
      JavaScript gives an integer of magnitude below 10^21.
    - Input values are JSON data and [undefined].  Property lookup sees the
      own properties of a value (the elements and [length] of an array or
      a string, the members of an object).  The members a value inherits
      from the prototypes of the standard library are functions and
      prototype objects, which are not in the value model: [js_get] and
      [js_in] are the runtime's [v[k]] and [k in v] for every string key
      that is not a [standard_member_name], and a statement that rests on
      a string key being looked up and not found carries that hypothesis. *)

From Stdlib Require Import String Ascii ZArith List Bool Lia.
From Stdlib Require Import Decimal DecimalString DecimalZ.
From Stdlib Require Import Sorting.Sorted Sorting.Permutation.
Import ListNotations.
Local Open Scope string_scope.
Local Open Scope Z_scope.

(** ** Values *)

#[local] Set Warnings "-register-all".

Inductive value : Type :=
| VUndefined
| VNull
| VBool (b : bool)
| VNum (n : Z)
| VStr (s : string)
| VArr (elems : list value)
| VObj (props : list (string * value)).

(** A key of a key path or of a location: [typeof key === 'number'] or a
    string. *)
Inductive key : Type :=
| KStr (s : string)
| KNum (n : Z).

(** The [typeof] operator. *)
Definition typeof (v : value) : string :=
  match v with
  | VUndefined => "undefined"
  | VNull => "object"
  | VBool _ => "boolean"
  | VNum _ => "number"
  | VStr _ => "string"
  | VArr _ => "object"
  | VObj _ => "object"
  end.

(** [v instanceof Array]. *)
Definition instanceof_Array (v : value) : bool :=
  match v with
  | VArr _ => true
  | _ => false
  end.

(** [v === undefined]. *)
Definition is_undefined (v : value) : bool :=
  match v with
  | VUndefined => true
  | _ => false
  end.

(** [v === null]. *)
Definition is_null (v : value) : bool :=
  match v with
  | VNull => true
  | _ => false
  end.

(** ** Outcomes: a returned value or a thrown exception *)

(** [Error m] is [new Error(m)], the only exception the module constructs;
    [TypeError] is the exception the runtime itself raises, for a property
    read on [null] or [undefined] and for [in] applied to a non-object. *)
Inductive exn : Type :=
| Error (message : string)
| TypeError.

Inductive outcome (T : Type) : Type :=
| Return (x : T)
| Throw (e : exn).

Arguments Return {T} x.
Arguments Throw {T} e.

Definition bind {A B : Type} (c : outcome A) (k : A -> outcome B) : outcome B :=
  match c with
  | Return x => k x
  | Throw e => Throw e
  end.

Notation "x <- c ;; k" := (bind c (fun x => k))
  (at level 61, c at next level, right associativity).
Notation "' p <- c ;; k" := (bind c (fun x => let 'p := x in k))
  (at level 61, p pattern, c at next level, right associativity).

(** A loop over a list that threads a state and stops at the first throw:
    [Array.prototype.forEach] with captured variables, and
    [Array.prototype.reduce]. *)
Fixpoint foldM {S A : Type} (f : S -> A -> outcome S) (l : list A) (s : S)
  : outcome S :=
  match l with
  | [] => Return s
  | a :: l' => s' <- f s a ;; foldM f l' s'
  end.

(** [Array.prototype.map] with a callback that may throw: the callback runs
    on the elements in index order and the first throw ends the loop. *)
Fixpoint map_from {A B : Type} (f : A -> nat -> outcome B) (i : nat) (l : list A)
  : outcome (list B) :=
  match l with
  | [] => Return []
  | a :: l' => b <- f a i ;; bs <- map_from f (S i) l' ;; Return (b :: bs)
  end.

Definition Array_map {A B : Type} (f : A -> nat -> outcome B) (l : list A)
  : outcome (list B) :=
  map_from f 0%nat l.

(** ** Strings *)

(** The double quote character, as a string. *)
Definition dquote : string := String "034"%char EmptyString.

(** Number to string conversion of an integer: decimal digits, with a minus
    sign when negative. *)
Definition num_to_string (n : Z) : string :=
  NilZero.string_of_int (Z.to_int n).

Definition in_range (lo hi : nat) (c : ascii) : bool :=
  (Nat.leb lo (nat_of_ascii c) && Nat.leb (nat_of_ascii c) hi)%bool.

(** The character class [[$_a-zA-Z]]. *)
Definition ident_start (c : ascii) : bool :=
  (Ascii.eqb c "$" || Ascii.eqb c "_" || in_range 97 122 c || in_range 65 90 c)%bool.

(** The character class [[$_a-zA-Z0-9]]. *)
Definition ident_part (c : ascii) : bool :=
  (ident_start c || in_range 48 57 c)%bool.

Fixpoint all_chars (p : ascii -> bool) (s : string) : bool :=
  match s with
  | EmptyString => true
  | String c s' => (p c && all_chars p s')%bool
  end.

(** [/^[$_a-zA-Z][$_a-zA-Z0-9]*$/.test(s)], the test of [escapeKey]. *)
Definition re_ident_star (s : string) : bool :=
  match s with
  | EmptyString => false
  | String c s' => (ident_start c && all_chars ident_part s')%bool
  end.

(** [/^[$_a-zA-Z][$_a-zA-Z0-9]+$/.test(s)], the test of [pushLocation]. *)
Definition re_ident_plus (s : string) : bool :=
  match s with
  | EmptyString => false
  | String c EmptyString => false
  | String c s' => (ident_start c && all_chars ident_part s')%bool
  end.

(** Lower-case hexadecimal digit of a number below 16. *)
Definition hex_digit (n : nat) : ascii :=
  if Nat.ltb n 10 then ascii_of_nat (48 + n) else ascii_of_nat (87 + n).

(** The JSON text of one code unit inside a quoted string. *)
Definition quote_unit (c : ascii) : string :=
  let n := nat_of_ascii c in
  if Nat.eqb n 8 then "\b"
  else if Nat.eqb n 9 then "\t"
  else if Nat.eqb n 10 then "\n"
  else if Nat.eqb n 12 then "\f"
  else if Nat.eqb n 13 then "\r"
  else if Nat.eqb n 34 then "\" ++ dquote
  else if Nat.eqb n 92 then "\\"
  else if Nat.ltb n 32 then
    "\u00" ++ String (hex_digit (Nat.div n 16)) (String (hex_digit (Nat.modulo n 16)) "")
  else String c "".

Fixpoint quote_units (s : string) : string :=
  match s with
  | EmptyString => ""
  | String c s' => quote_unit c ++ quote_units s'
  end.

(** [JSON.stringify(s)] for a string [s]. *)
Definition JSON_stringify (s : string) : string :=
  dquote ++ quote_units s ++ dquote.

(** ** Property access *)

(** The property name a key is converted to. *)
Definition prop_name (k : key) : string :=
  match k with
  | KStr s => s
  | KNum n => num_to_string n
  end.

(** A property name that is the canonical decimal text of a non-negative
    integer denotes that index. *)
Definition array_index (name : string) : option nat :=
  match NilZero.int_of_string name with
  | Some d =>
      let n := Z.of_int d in
      if ((0 <=? n) && (num_to_string n =? name)%string)%bool
      then Some (Z.to_nat n) else None
  | None => None
  end.

Fixpoint assoc (name : string) (props : list (string * value)) : option value :=
  match props with
  | [] => None
  | (k, v) :: props' => if (k =? name)%string then Some v else assoc name props'
  end.

(** The own property [name] of a value, if it has one. *)
Definition own_property (v : value) (name : string) : option value :=
  match v with
  | VStr s =>
      if (name =? "length")%string then Some (VNum (Z.of_nat (String.length s)))
      else match array_index name with
           | Some i => option_map (fun c => VStr (String c "")) (String.get i s)
           | None => None
           end
  | VArr elems =>
      if (name =? "length")%string then Some (VNum (Z.of_nat (List.length elems)))
      else match array_index name with
           | Some i => nth_error elems i
           | None => None
           end
  | VObj props => assoc name props
  | _ => None
  end.

(** [v[k]]: a [TypeError] on [null] and [undefined], otherwise the own
    property or [undefined].  This is the runtime's lookup for an index,
    for a string key that names an own property, and for any other string
    key that is no [standard_member_name]. *)
Definition js_get (v : value) (k : key) : outcome value :=
  match v with
  | VUndefined | VNull => Throw TypeError
  | _ =>
      match own_property v (prop_name k) with
      | Some x => Return x
      | None => Return VUndefined
      end
  end.

(** [name in v]: a [TypeError] unless [v] is an object (an array or a
    record); [null] is not one.  The answer [true] is the runtime's; the
    answer [false] is the runtime's for a name that is no
    [standard_member_name]. *)
Definition js_in (name : string) (v : value) : outcome bool :=
  match v with
  | VArr _ | VObj _ =>
      match own_property v name with
      | Some _ => Return true
      | None => Return false
      end
  | _ => Throw TypeError
  end.

(** The names of the members the prototypes of the standard library define
    for objects, arrays, strings, numbers and booleans (Annex B of the
    language standard and engine extensions included).  On any other name
    a lookup sees own properties only. *)
Definition standard_member_names : list string :=
  [ (* Object.prototype *)
    "constructor"; "hasOwnProperty"; "isPrototypeOf"; "propertyIsEnumerable";
    "toLocaleString"; "toString"; "valueOf"; "__proto__";
    "__defineGetter__"; "__defineSetter__"; "__lookupGetter__"; "__lookupSetter__";
    "toSource"; "watch"; "unwatch";
    (* Array.prototype *)
    "at"; "concat"; "copyWithin"; "entries"; "every"; "fill"; "filter"; "find";
    "findIndex"; "findLast"; "findLastIndex"; "flat"; "flatMap"; "forEach";
    "includes"; "indexOf"; "join"; "keys"; "lastIndexOf"; "map"; "pop"; "push";
    "reduce"; "reduceRight"; "reverse"; "shift"; "slice"; "some"; "sort"; "splice";
    "toReversed"; "toSorted"; "toSpliced"; "unshift"; "values"; "with";
    "group"; "groupToMap"; "groupBy"; "groupByToMap";
    (* String.prototype *)
    "charAt"; "charCodeAt"; "codePointAt"; "endsWith"; "isWellFormed";
    "localeCompare"; "match"; "matchAll"; "normalize"; "padEnd"; "padStart";
    "repeat"; "replace"; "replaceAll"; "search"; "split"; "startsWith";
    "substring"; "toLocaleLowerCase"; "toLocaleUpperCase"; "toLowerCase";
    "toUpperCase"; "toWellFormed"; "trim"; "trimEnd"; "trimStart"; "trimLeft";
    "trimRight"; "substr"; "anchor"; "big"; "blink"; "bold"; "fixed"; "fontcolor";
    "fontsize"; "italics"; "link"; "small"; "strike"; "sub"; "sup"; "contains";
    "quote";
    (* Number.prototype *)
    "toExponential"; "toFixed"; "toPrecision" ].

Definition standard_member_name (name : string) : bool :=
  existsb (String.eqb name) standard_member_names.

(** A key on which [js_get] is the runtime's lookup whether or not the
    key is found: an index, or a string that is not a
    [standard_member_name]. *)
Definition plain_key (k : key) : bool :=
  match k with
  | KStr s => negb (standard_member_name s)
  | KNum _ => true
  end.

(** [v.length] of an array. *)
Definition array_length (v : value) : Z :=
  match v with
  | VArr elems => Z.of_nat (List.length elems)
  | _ => 0
  end.

(** ** Sorting and joining of key lists *)

Fixpoint insert_key (k : string) (keys : list string) : list string :=
  match keys with
  | [] => [k]
  | x :: keys' => if String.leb k x then k :: keys else x :: insert_key k keys'
  end.

(** [keys.sort()] on an array of strings: the default comparison orders
    strings by their code units, ascending. *)
Fixpoint Array_sort (keys : list string) : list string :=
  match keys with
  | [] => []
  | k :: keys' => insert_key k (Array_sort keys')
  end.

(** [parts.join(sep)]. *)
Definition Array_join (sep : string) (parts : list string) : string :=
  String.concat sep parts.

(** ** Objects under construction, enumeration and strict equality *)

(** [v instanceof Object]. *)
Definition instanceof_Object (v : value) : bool :=
  match v with
  | VArr _ | VObj _ => true
  | _ => false
  end.

(** The keys a [for (key in v)] loop visits, in order.  The members of a
    [VObj] are listed in that order; an array and a string enumerate their
    indices. *)
Definition enumerable_keys (v : value) : list string :=
  match v with
  | VObj props => List.map fst props
  | VArr elems => List.map (fun i => num_to_string (Z.of_nat i)) (seq 0 (List.length elems))
  | VStr s => List.map (fun i => num_to_string (Z.of_nat i)) (seq 0 (String.length s))
  | _ => []
  end.

(** [result[key] = x] on a plain object built from [{}]: an existing member
    is overwritten in place, a new one is added last.  (The key
    [__proto__], whose assignment goes through an inherited setter, is
    outside the model.) *)
Fixpoint assign {T : Type} (result : list (string * T)) (name : string) (x : T)
  : list (string * T) :=
  match result with
  | [] => [(name, x)]
  | (k, y) :: result' =>
      if (k =? name)%string then (k, x) :: result'
      else (k, y) :: assign result' name x
  end.

(** The values [===] compares by content. *)
Inductive primitive : Type :=
| PUndefined
| PNull
| PBool (b : bool)
| PNum (n : Z)
| PStr (s : string).

Definition of_primitive (p : primitive) : value :=
  match p with
  | PUndefined => VUndefined
  | PNull => VNull
  | PBool b => VBool b
  | PNum n => VNum n
  | PStr s => VStr s
  end.

(** [obj === p] for a primitive [p]: same type and same content; an array or
    a record is never equal to a primitive. *)
Definition strict_equal (obj : value) (p : primitive) : bool :=
  match obj, p with
  | VUndefined, PUndefined => true
  | VNull, PNull => true
  | VBool a, PBool b => Bool.eqb a b
  | VNum a, PNum b => (a =? b)%Z
  | VStr a, PStr b => (a =? b)%string
  | _, _ => false
  end.

(** The text [JSON.stringify(p)] contributes to a message built by string
    concatenation ([JSON.stringify(undefined)] is [undefined]). *)
Definition JSON_stringify_primitive (p : primitive) : string :=
  match p with
  | PUndefined => "undefined"
  | PNull => "null"
  | PBool true => "true"
  | PBool false => "false"
  | PNum n => num_to_string n
  | PStr s => JSON_stringify s
  end.

(** ** Errors and locations *)

(** [prettyPrint]. *)
Definition prettyPrint (v : value) : string :=
  if is_null v then "null"
  else if instanceof_Array v then "array"
  else typeof v.

(** The argument object of [decoderError]; a field that is left out reads
    as [undefined]. *)
Record error_fields : Type := mkFields {
  err_at : string;
  expected : string;
  got : value
}.

(** [decoderError]. *)
Definition decoderError (a : error_fields) : exn :=
  if (typeof (got a) =? "undefined")%string then
    Error ("error at " ++ err_at a ++ ": expected " ++ expected a)
  else
    Error ("error at " ++ err_at a ++ ": expected " ++ expected a
           ++ ", got " ++ prettyPrint (got a)).

(** [escapeKey]. *)
Definition escapeKey (k : string) : string :=
  if re_ident_star k then k else JSON_stringify k.

(** The first statement of [pushLocation]: the root marker renders as the
    empty prefix. *)
Definition location_prefix (loc : string) : string :=
  if (loc =? "root")%string then "" else loc.

(** [pushLocation]. *)
Definition pushLocation (loc : string) (k : key) : string :=
  let loc := location_prefix loc in
  match k with
  | KNum n => loc ++ "[" ++ num_to_string n ++ "]"
  | KStr s =>
      if re_ident_plus s then loc ++ "." ++ s
      else loc ++ "[" ++ JSON_stringify s ++ "]"
  end.

(** ** The decoders *)

Module Dec.

(** A [Decoder] is the function [fn] it wraps: input and location to an
    outcome. *)
Definition Decoder (T : Type) : Type := value -> string -> outcome T.

(** The package-private [decode]. *)
Definition decode {T : Type} (decoder : Decoder T) (object : value) (loc : string)
  : outcome T :=
  decoder object loc.

(** [Decoder.prototype.decodeAny]. *)
Definition decodeAny {T : Type} (decoder : Decoder T) (object : value) : outcome T :=
  decoder object "root".

Definition number : Decoder value :=
  fun obj loc =>
    if negb (typeof obj =? "number")%string then
      Throw (decoderError {| err_at := loc; expected := "number"; got := obj |})
    else Return obj.

Definition boolean : Decoder value :=
  fun obj loc =>
    if negb (typeof obj =? "boolean")%string then
      Throw (decoderError {| err_at := loc; expected := "boolean"; got := obj |})
    else Return obj.

Definition null_ : Decoder value :=
  fun obj loc =>
    if negb (is_null obj) then
      Throw (decoderError {| err_at := loc; expected := "null"; got := obj |})
    else Return obj.

Definition any : Decoder value :=
  fun obj _ => Return obj.

Definition opaqueObject : Decoder value :=
  fun obj loc =>
    if negb (typeof obj =? "object")%string then
      Throw (decoderError {| err_at := loc; expected := "object"; got := obj |})
    else Return obj.

Definition array {T : Type} (element : Decoder T) : Decoder (list T) :=
  fun obj loc =>
    match obj with
    | VArr elems =>
        Array_map (fun e i => decode element e (pushLocation loc (KNum (Z.of_nat i))))
                  elems
    | _ => Throw (decoderError {| err_at := loc; expected := "array"; got := obj |})
    end.

(** The callback of [decoders.forEach] in [object]; the captured arrays
    [values] and [missingKeys] are the threaded state. *)
Definition object_entry {A : Type} (obj : value) (loc : string)
  (st : list A * list string) (entry : string * Decoder A)
  : outcome (list A * list string) :=
  let '(values, missingKeys) := st in
  let '(key, decoder) := entry in
  present <- js_in key obj ;;
  if (present : bool) then
    field <- js_get obj (KStr key) ;;
    x <- decode decoder field (pushLocation loc (KStr key)) ;;
    Return ((values ++ [x])%list, missingKeys)
  else Return (values, (missingKeys ++ [key])%list).

(** [object(entry1, ..., entryN, cons)]. *)
Definition object {A B : Type} (decoders : list (string * Decoder A))
  (cons : list A -> B) : Decoder B :=
  fun obj loc =>
    if negb (typeof obj =? "object")%string then
      Throw (decoderError {| err_at := loc; expected := "object"; got := obj |})
    else
      ' (values, missingKeys) <- foldM (object_entry obj loc) decoders ([], []) ;;
      if Nat.ltb 0 (List.length missingKeys) then
        let keys := Array_join ", " (List.map escapeKey (Array_sort missingKeys)) in
        Throw (decoderError {| err_at := loc;
                               expected := "object with keys: " ++ keys;
                               got := VUndefined |})
      else Return (cons values).

Definition map {A B : Type} (transform : A -> B) (decoder : Decoder A) : Decoder B :=
  fun obj loc => x <- decode decoder obj loc ;; Return (transform x).

(** [tuple(d1, ..., dN)]: [decoders.map] with the callback reading
    [obj[i]]. *)
Definition tuple {T : Type} (decoders : list (Decoder T)) : Decoder (list T) :=
  fun obj loc =>
    Array_map (fun decoder i =>
                 e <- js_get obj (KNum (Z.of_nat i)) ;;
                 decode decoder e (pushLocation loc (KNum (Z.of_nat i))))
              decoders.

(** The callback of [keyPath.reduce] in [at]: the accumulator is the pair
    [{result, resultAt}]; [obj] and [loc] are the arguments of the
    enclosing decoder function. *)
Definition at_step (obj : value) (loc : string) (acc : value * string) (k : key)
  : outcome (value * string) :=
  let '(result, resultAt) := acc in
  v <- js_get result k ;;
  if is_undefined v then
    match k with
    | KNum n =>
        if instanceof_Array result then
          Throw (decoderError
                   {| err_at := loc;
                      expected := "array: index out of range: " ++ num_to_string n
                                  ++ " > " ++ num_to_string (array_length result - 1);
                      got := VUndefined |})
        else
          Throw (decoderError
                   {| err_at := loc;
                      expected := "array with index " ++ num_to_string n;
                      got := obj |})
    | KStr s =>
        Throw (decoderError
                 {| err_at := loc;
                    expected := "object with key " ++ escapeKey s;
                    got := result |})
    end
  else Return (v, pushLocation resultAt k).

(** The [keyPath.reduce] call of [at], started from [{result: obj,
    resultAt: at}]. *)
Definition at_walk (obj : value) (loc : string) (keyPath : list key)
  : outcome (value * string) :=
  foldM (at_step obj loc) keyPath (obj, loc).

(** [at(keyPath, decoder)]. *)
Definition at_ {T : Type} (keyPath : list key) (decoder : Decoder T) : Decoder T :=
  fun obj loc =>
    ' (result, resultAt) <- at_walk obj loc keyPath ;;
    decode decoder result resultAt.

(** The [for] loop with [try]/[catch] shared by [oneOf] and [union]: every
    exception of a branch is swallowed. *)
Fixpoint try_each {T : Type} (decoders : list (Decoder T)) (obj : value) (loc : string)
  : outcome T :=
  match decoders with
  | [] => Throw (Error ("error at " ++ loc ++ ": unexpected " ++ prettyPrint obj))
  | decoder :: decoders' =>
      match decode decoder obj loc with
      | Return x => Return x
      | Throw _ => try_each decoders' obj loc
      end
  end.

Definition oneOf {T : Type} (first : Decoder T) (rest : list (Decoder T)) : Decoder T :=
  fun obj loc =>
    match decode first obj loc with
    | Return x => Return x
    | Throw _ => try_each rest obj loc
    end.

Definition nullable (other : Decoder value) : Decoder value :=
  oneOf other [null_].

Definition fail {T : Type} (message : String.string) : Decoder T :=
  fun _ loc => Throw (Error ("error at " ++ loc ++ ": " ++ message)).

Definition succeed {T : Type} (v : T) : Decoder T :=
  fun _ _ => Return v.

Definition andThen {A B : Type} (ad : Decoder A) (cb : A -> Decoder B) : Decoder B :=
  fun obj loc => x <- decode ad obj loc ;; decode (cb x) obj loc.

Definition union {T : Type} (decoders : list (Decoder T)) : Decoder T :=
  fun obj loc => try_each decoders obj loc.

Definition lazy {T : Type} (thunk : unit -> Decoder T) : Decoder T :=
  fun obj loc => decode (thunk tt) obj loc.

(** [equal(value)] for a primitive [value]. *)
Definition equal (v : primitive) : Decoder value :=
  fun obj loc =>
    if negb (strict_equal obj v) then
      Throw (decoderError {| err_at := loc;
                             expected := JSON_stringify_primitive v;
                             got := obj |})
    else Return obj.

(** The body of the [for (key in obj)] loop of [dict]; the object [result]
    is the threaded state. *)
Definition dict_member {T : Type} (value_ : Decoder T) (obj : value) (loc : String.string)
  (result : list (String.string * T)) (key : String.string)
  : outcome (list (String.string * T)) :=
  field <- js_get obj (KStr key) ;;
  x <- decode value_ field (pushLocation loc (KStr key)) ;;
  Return (assign result key x).

(** [dict(value)]. *)
Definition dict {T : Type} (value_ : Decoder T) : Decoder (list (String.string * T)) :=
  fun obj loc =>
    if (negb (instanceof_Object obj) || instanceof_Array obj)%bool then
      Throw (decoderError {| err_at := loc; expected := "object"; got := obj |})
    else foldM (dict_member value_ obj loc) (enumerable_keys obj) [].

Definition string : Decoder value :=
  fun obj loc =>
    if negb (typeof obj =? "string")%string then
      Throw (decoderError {| err_at := loc; expected := "string"; got := obj |})
    else Return obj.

End Dec.

(** ** Predicates used to state the properties *)

(** [entries_pass obj loc ds vs ms]: the entries [ds] of an [object]
    decoder, taken left to right on input [obj] at location [loc], are each
    either absent from [obj] (the [in] test answers [false]: the key is no
    own member, and no [standard_member_name], which [obj] would inherit)
    or present with a field decoder that returns; [vs] are the decoded
    fields and [ms] the absent keys, both in declared order. *)
Inductive entries_pass {A : Type} (obj : value) (loc : string)
  : list (string * Dec.Decoder A) -> list A -> list string -> Prop :=
| pass_nil : entries_pass obj loc [] [] []
| pass_absent (k : string) (d : Dec.Decoder A) ds vs ms :
    standard_member_name k = false ->
    js_in k obj = Return false ->
    entries_pass obj loc ds vs ms ->
    entries_pass obj loc ((k, d) :: ds) vs (k :: ms)
| pass_decoded (k : string) (d : Dec.Decoder A) ds (field : value) (x : A) vs ms :
    js_in k obj = Return true ->
    js_get obj (KStr k) = Return field ->
    d field (pushLocation loc (KStr k)) = Return x ->
    entries_pass obj loc ds vs ms ->
    entries_pass obj loc ((k, d) :: ds) (x :: vs) ms.

(** [positions_accept obj loc i ds xs]: the positional lookups [obj[i]],
    [obj[i+1]], ... yield values that the decoders [ds] of a [tuple]
    accept in turn, with results [xs]. *)
Inductive positions_accept {T : Type} (obj : value) (loc : string)
  : nat -> list (Dec.Decoder T) -> list T -> Prop :=
| accept_nil i : positions_accept obj loc i [] []
| accept_cons i (d : Dec.Decoder T) ds (v : value) (x : T) xs :
    js_get obj (KNum (Z.of_nat i)) = Return v ->
    d v (pushLocation loc (KNum (Z.of_nat i))) = Return x ->
    positions_accept obj loc (S i) ds xs ->
    positions_accept obj loc i (d :: ds) (x :: xs).

(** A branch of [oneOf] or [union] fails on [obj] at [loc] when it throws,
    whatever it throws. *)
Definition branch_fails {T : Type} (obj : value) (loc : string) (d : Dec.Decoder T)
  : Prop :=
  exists e, d obj loc = Throw e.

(** [walks v l ks r rl]: from value [v] at location [l], the steps [ks]
    taken one at a time each find a value that is not [undefined], ending
    at value [r] with accumulated location [rl]. *)
Inductive walks : value -> string -> list key -> value -> string -> Prop :=
| walks_nil v l : walks v l [] v l
| walks_step v l k ks v' r rl :
    js_get v k = Return v' ->
    v' <> VUndefined ->
    walks v' (pushLocation l k) ks r rl ->
    walks v l (k :: ks) r rl.

(** A continuation that picks the decoder of the whole input from the
    value of its [kind] member. *)
Definition by_kind (x : value) : Dec.Decoder value :=
  match x with
  | VStr "pair" => Dec.map VArr (Dec.at_ [KStr "items"] (Dec.tuple [Dec.number; Dec.number]))
  | _ => Dec.fail "unknown kind"
  end.

(** The rendering of one key under an empty parent location. *)
Definition segment (k : key) : string := pushLocation "" k.

(** The rendering of a key path: its segments one after the other. *)
Fixpoint render_path (ks : list key) : string :=
  match ks with
  | [] => ""
  | k :: ks' => segment k ++ render_path ks'
  end.

Definition hex_value (c : ascii) : option nat :=
  if in_range 48 57 c then Some (nat_of_ascii c - 48)%nat
  else if in_range 97 102 c then Some (nat_of_ascii c - 87)%nat
  else None.

(** Reads back the first code unit of a text made by [quote_units]. *)
Definition first_unit (s : string) : option (ascii * string) :=
  match s with
  | EmptyString => None
  | String c r =>
      if Ascii.eqb c "\" then
        match r with
        | String e r' =>
            if Ascii.eqb e "b" then Some (ascii_of_nat 8, r')
            else if Ascii.eqb e "t" then Some (ascii_of_nat 9, r')
            else if Ascii.eqb e "n" then Some (ascii_of_nat 10, r')
            else if Ascii.eqb e "f" then Some (ascii_of_nat 12, r')
            else if Ascii.eqb e "r" then Some (ascii_of_nat 13, r')
            else if Ascii.eqb e "034" then Some (e, r')
            else if Ascii.eqb e "\" then Some (e, r')
            else match r' with
                 | String _ (String _ (String h (String l r''))) =>
                     match hex_value h, hex_value l with
                     | Some a, Some b => Some (ascii_of_nat (16 * a + b), r'')
                     | _, _ => None
                     end
                 | _ => None
                 end
        | EmptyString => None
        end
      else Some (c, r)
  end.

(** An outcome of the module's own making: a value, or an [Error] whose
    message starts with "error at ". *)
Definition located_outcome {T : Type} (o : outcome T) : Prop :=
  match o with
  | Return _ => True
  | Throw (Error m) => String.prefix "error at " m = true
  | Throw TypeError => False
  end.

(** A decoder all of whose outcomes are of the module's own making. *)
Definition located {T : Type} (d : Dec.Decoder T) : Prop :=
  forall obj loc, located_outcome (d obj loc).

(** Two decoders with the same outcome on every input at every location. *)
Definition same_decoder {T : Type} (d1 d2 : Dec.Decoder T) : Prop :=
  forall obj loc, d1 obj loc = d2 obj loc.

(** A member [m] of a record decodes under [d], at the location of its key,
    to the member [r] of the same key. *)
Definition member_decodes {T : Type} (d : Dec.Decoder T) (loc : string)
  (m : string * value) (r : string * T) : Prop :=
  fst r = fst m /\ d (snd m) (pushLocation loc (KStr (fst m))) = Return (snd r).

(** * Properties *)

(** ** Numbers as property names *)

Lemma to_int_proper (n : Z) : Z.to_int n <> Pos Nil /\ Z.to_int n <> Neg Nil.
Proof.
  destruct n as [|p|p]; simpl; split; try discriminate;
    intros [= H]; exact (DecimalPos.Unsigned.to_uint_nonnil p H).
Qed.

Lemma int_of_num_to_string (n : Z) :
  NilZero.int_of_string (num_to_string n) = Some (Z.to_int n).
Proof.
  unfold num_to_string. destruct (to_int_proper n) as [Hp Hn].
  now apply NilZero.isi.
Qed.

Lemma array_index_num (n : Z) :
  array_index (num_to_string n) = if 0 <=? n then Some (Z.to_nat n) else None.
Proof.
  unfold array_index. rewrite int_of_num_to_string.
  cbv zeta. rewrite DecimalZ.of_to, String.eqb_refl, andb_true_r. reflexivity.
Qed.

Lemma array_index_of_nat (i : nat) :
  array_index (num_to_string (Z.of_nat i)) = Some i.
Proof.
  rewrite array_index_num.
  destruct (Z.leb_spec 0 (Z.of_nat i)); [now rewrite Nat2Z.id | lia].
Qed.

Lemma num_to_string_not_length (n : Z) :
  (num_to_string n =? "length")%string = false.
Proof.
  apply String.eqb_neq. intros H.
  pose proof (int_of_num_to_string n) as Hn. rewrite H in Hn. discriminate.
Qed.

(** Reading a position of an array: the element, or [undefined] past the
    end. *)
Lemma js_get_array_index (elems : list value) (i : nat) :
  js_get (VArr elems) (KNum (Z.of_nat i)) = Return (nth i elems VUndefined).
Proof.
  unfold js_get, own_property, prop_name.
  rewrite num_to_string_not_length, array_index_of_nat.
  destruct (nth_error elems i) as [v|] eqn:E.
  - now rewrite (nth_error_nth _ _ VUndefined E).
  - apply nth_error_None in E. now rewrite nth_overflow.
Qed.

(** ** Locations ([pushLocation]) *)

Lemma pushLocation_root (k : key) :
  pushLocation "root" k = pushLocation "" k.
Proof. reflexivity. Qed.

Lemma pushLocation_index (loc : string) (i : Z) :
  pushLocation loc (KNum i) = location_prefix loc ++ "[" ++ num_to_string i ++ "]".
Proof. reflexivity. Qed.

Lemma re_ident_plus_star (s : string) :
  re_ident_plus s = true -> re_ident_star s = true.
Proof.
  destruct s as [|c [|c' s']]; simpl; auto; discriminate.
Qed.

Lemma re_ident_star_plus (c c' : ascii) (s : string) :
  re_ident_plus (String c (String c' s)) = re_ident_star (String c (String c' s)).
Proof. reflexivity. Qed.

(** A key of two or more characters that matches the identifier syntax
    renders as [.key]. *)
Lemma pushLocation_long_identifier (loc : string) (c c' : ascii) (s : string) :
  re_ident_star (String c (String c' s)) = true ->
  pushLocation loc (KStr (String c (String c' s)))
  = location_prefix loc ++ "." ++ String c (String c' s).
Proof.
  intros H. unfold pushLocation. now rewrite re_ident_star_plus, H.
Qed.

(** A key that does not match the identifier syntax renders quoted inside
    square brackets. *)
Lemma pushLocation_other_key (loc s : string) :
  re_ident_star s = false ->
  pushLocation loc (KStr s) = location_prefix loc ++ "[" ++ JSON_stringify s ++ "]".
Proof.
  intros H. unfold pushLocation.
  destruct (re_ident_plus s) eqn:E; [|reflexivity].
  apply re_ident_plus_star in E. congruence.
Qed.

Lemma quote_unit_ident_start (c : ascii) :
  ident_start c = true -> quote_unit c = String c "".
Proof.
  revert c. intros [[] [] [] [] [] [] [] []]; vm_compute; intros H;
    try reflexivity; discriminate H.
Qed.

(** C1: a single-character key that matches the identifier syntax of the
    specification, such as ["a"], is accepted by the test of [escapeKey]
    (the [*] form) and rejected by the test of [pushLocation] (the [+]
    form), so [pushLocation] renders it quoted inside square brackets and
    not as [.key]. *)
Theorem pushLocation_single_char_key (loc : string) (c : ascii) :
  ident_start c = true ->
  re_ident_star (String c "") = true
  /\ escapeKey (String c "") = String c ""
  /\ pushLocation loc (KStr (String c ""))
     = location_prefix loc ++ "[" ++ dquote ++ String c "" ++ dquote ++ "]"
  /\ pushLocation loc (KStr (String c "")) <> location_prefix loc ++ "." ++ String c "".
Proof.
  intros H.
  assert (Hs : re_ident_star (String c "") = true) by (simpl; now rewrite H).
  assert (Hp : pushLocation loc (KStr (String c ""))
               = location_prefix loc ++ "[" ++ dquote ++ String c "" ++ dquote ++ "]").
  { unfold pushLocation, JSON_stringify. simpl re_ident_plus. cbv iota.
    simpl quote_units. now rewrite (quote_unit_ident_start c H). }
  repeat split; auto.
  - unfold escapeKey. now rewrite Hs.
  - rewrite Hp. intros E.
    assert (forall p a b, p ++ a = p ++ b -> a = b) as cancel.
    { induction p as [|x p IH]; simpl; intros a b Hab; auto.
      injection Hab as Hab. now apply IH. }
    apply cancel in E. discriminate E.
Qed.

Lemma pushLocation_single_char_key_a :
  ident_start "a" = true
  /\ pushLocation "root" (KStr "a") = "[" ++ dquote ++ "a" ++ dquote ++ "]"
  /\ pushLocation "root" (KStr "a") <> ".a".
Proof.
  split; [reflexivity|].
  destruct (pushLocation_single_char_key "root" "a" eq_refl) as (_ & _ & H1 & H2).
  split; [exact H1 | exact H2].
Defined.

(** ** [opaqueObject] *)

Lemma typeof_object_iff (v : value) :
  typeof v = "object"
  <-> v = VNull \/ (exists elems, v = VArr elems) \/ (exists props, v = VObj props).
Proof.
  split.
  - destruct v; simpl; intros H; try discriminate H; eauto.
  - intros [-> | [[elems ->] | [props ->]]]; reflexivity.
Qed.

Lemma typeof_undefined_iff (v : value) :
  (typeof v =? "undefined")%string = true <-> v = VUndefined.
Proof.
  destruct v; simpl; split; intros H; try discriminate H; reflexivity.
Qed.

(** The message of [decoderError] carries a [got] part exactly when the
    [got] field is not [undefined]. *)
Lemma decoderError_got (loc exp : string) (g : value) :
  g <> VUndefined ->
  decoderError {| err_at := loc; expected := exp; got := g |}
  = Error ("error at " ++ loc ++ ": expected " ++ exp ++ ", got " ++ prettyPrint g).
Proof.
  intros H. unfold decoderError. simpl err_at; simpl expected; simpl got.
  destruct (typeof g =? "undefined")%string eqn:E; [|reflexivity].
  apply typeof_undefined_iff in E. contradiction.
Qed.

Lemma decoderError_no_got (loc exp : string) :
  decoderError {| err_at := loc; expected := exp; got := VUndefined |}
  = Error ("error at " ++ loc ++ ": expected " ++ exp).
Proof. reflexivity. Qed.

(** C2, as stated, fails at [undefined]: its type tag is not ["object"], and
    the error raised carries no [got] part. *)
Lemma opaqueObject_undefined_has_no_got :
  typeof VUndefined <> "object"
  /\ Dec.decodeAny Dec.opaqueObject VUndefined
     <> Throw (Error ("error at root: expected object, got " ++ prettyPrint VUndefined)).
Proof.
  split; vm_compute; discriminate.
Qed.

(** C2 (amended): [opaqueObject().decodeAny(v)] returns [v] unchanged
    exactly when [typeof v] is ["object"], which holds of [null], of arrays
    and of records; for every other [v] that is not [undefined] it fails
    with expected ["object"] and got the pretty-printed kind of [v]; for
    [undefined] it fails with expected ["object"] and no got part. *)
Theorem opaqueObject_decodeAny (v : value) :
  (typeof v = "object" -> Dec.decodeAny Dec.opaqueObject v = Return v)
  /\ (typeof v <> "object" -> v <> VUndefined ->
      Dec.decodeAny Dec.opaqueObject v
      = Throw (Error ("error at root: expected object, got " ++ prettyPrint v)))
  /\ (v = VUndefined ->
      Dec.decodeAny Dec.opaqueObject v = Throw (Error "error at root: expected object"))
  /\ (forall x, Dec.decodeAny Dec.opaqueObject v = Return x ->
                typeof v = "object" /\ x = v)
  /\ (typeof v = "object"
      <-> v = VNull \/ (exists elems, v = VArr elems) \/ (exists props, v = VObj props)).
Proof.
  unfold Dec.decodeAny, Dec.opaqueObject.
  repeat split.
  - intros H. now rewrite H.
  - intros H Hu.
    destruct (String.eqb_spec (typeof v) "object") as [E|E]; [contradiction|].
    simpl negb. cbv iota. now rewrite decoderError_got.
  - intros ->. reflexivity.
  - destruct (String.eqb_spec (typeof v) "object") as [E|E]; [assumption|].
    simpl in H. discriminate H.
  - destruct (String.eqb_spec (typeof v) "object") as [E|E]; simpl in H;
      [now injection H | discriminate H].
  - apply typeof_object_iff.
  - apply typeof_object_iff.
Qed.

Lemma opaqueObject_decodeAny_witness :
  Dec.decodeAny Dec.opaqueObject VNull = Return VNull
  /\ Dec.decodeAny Dec.opaqueObject (VArr [VNum 1]) = Return (VArr [VNum 1])
  /\ Dec.decodeAny Dec.opaqueObject (VStr "x")
     = Throw (Error "error at root: expected object, got string")
  /\ Dec.decodeAny Dec.opaqueObject VUndefined
     = Throw (Error "error at root: expected object").
Proof.
  split; [|split; [|split]].
  - apply (proj1 (opaqueObject_decodeAny VNull)). reflexivity.
  - apply (proj1 (opaqueObject_decodeAny (VArr [VNum 1]))). reflexivity.
  - apply (proj1 (proj2 (opaqueObject_decodeAny (VStr "x")))); discriminate.
  - apply (proj1 (proj2 (proj2 (opaqueObject_decodeAny VUndefined)))). reflexivity.
Defined.

(** ** Outcomes other than a value or a located error *)

Lemma object_on_null {A B : Type} (k : string) (d : Dec.Decoder A)
  (ds : list (string * Dec.Decoder A)) (cons : list A -> B) (loc : string) :
  Dec.object ((k, d) :: ds) cons VNull loc = Throw TypeError.
Proof. reflexivity. Qed.

Lemma at_on_null {T : Type} (k : key) (ks : list key) (d : Dec.Decoder T)
  (loc : string) :
  Dec.at_ (k :: ks) d VNull loc = Throw TypeError.
Proof. reflexivity. Qed.

(** C3: [object] with at least one entry applied to [null], and [at] with a
    step whose current value is [null], end in the runtime's [TypeError]:
    neither a decoded value nor an [Error] with a location. *)
Theorem object_and_at_on_null_throw_TypeError :
  (forall (k : string) (d : Dec.Decoder value) (ds : list (string * Dec.Decoder value))
          (cons : list value -> value),
      Dec.decodeAny (Dec.object ((k, d) :: ds) cons) VNull = Throw TypeError)
  /\ (forall (k : key) (ks : list key) (d : Dec.Decoder value),
      Dec.decodeAny (Dec.at_ (k :: ks) d) VNull = Throw TypeError)
  /\ Dec.decodeAny (Dec.at_ [KStr "a"; KStr "b"] Dec.any) (VObj [("a", VNull)])
     = Throw TypeError
  /\ (forall (T : Type) (x : T) (m : string),
      @Throw T TypeError <> Return x /\ @Throw T TypeError <> Throw (Error m)).
Proof.
  repeat split; try reflexivity; discriminate.
Qed.

(** ** [object] *)

(** Every code unit of a quoted key can be read back from its JSON text. *)
Lemma first_unit_quote_unit (c : ascii) (r : string) :
  first_unit (quote_unit c ++ r) = Some (c, r).
Proof.
  destruct c as [[] [] [] [] [] [] [] []]; reflexivity.
Qed.

Section ObjectEntries.

Context {A : Type}.
Variables (obj : value) (loc : string).





End ObjectEntries.







(** ** [tuple] *)

Lemma map_from_ext {A B : Type} (f g : A -> nat -> outcome B) (l : list A) :
  forall i,
    (forall a j, f a j = g a j) ->
    map_from f i l = map_from g i l.
Proof.
  induction l as [|a l IH]; intros i H; simpl; [reflexivity|].
  rewrite H. now rewrite (IH (S i) H).
Qed.

Lemma map_from_app {A B : Type} (f : A -> nat -> outcome B) (l1 l2 : list A) :
  forall i,
    map_from f i (l1 ++ l2)%list
    = xs <- map_from f i l1 ;;
      ys <- map_from f (i + List.length l1)%nat l2 ;;
      Return (xs ++ ys)%list.
Proof.
  induction l1 as [|a l1 IH]; intros i.
  - cbn [List.app map_from bind List.length]. rewrite Nat.add_0_r.
    destruct (map_from f i l2); reflexivity.
  - rewrite <- app_comm_cons. cbn [map_from List.length].
    destruct (f a i) as [b|e]; cbn [bind]; [|reflexivity].
    rewrite IH. rewrite Nat.add_succ_comm.
    destruct (map_from f (S i) l1) as [xs|e]; cbn [bind]; [|reflexivity].
    destruct (map_from f (i + S (List.length l1))%nat l2); reflexivity.
Qed.

(** On an array, [tuple] reads every declared position with no regard to the
    length of the array: a position past the end reads as [undefined]. *)
Lemma tuple_on_array {T : Type} (ds : list (Dec.Decoder T)) (elems : list value)
  (loc : string) :
  Dec.tuple ds (VArr elems) loc
  = Array_map (fun d i => d (nth i elems VUndefined)
                            (pushLocation loc (KNum (Z.of_nat i)))) ds.
Proof.
  unfold Dec.tuple, Array_map. apply map_from_ext. intros d j.
  now rewrite js_get_array_index.
Qed.

(** C5, as stated, fails in its example: a [string] element decoder applied
    to the [undefined] past the end of the array raises an error with no
    got part. *)
Lemma tuple_short_array_message_has_no_got :
  Dec.decodeAny (Dec.tuple [Dec.string; Dec.string]) (VArr [VStr "x"])
  <> Throw (Error "error at [1]: expected string, got undefined").
Proof.
  vm_compute. discriminate.
Qed.

(** C5 (amended): [tuple(d1..dN)] on an array of length L < N makes no
    length check: position [i] is decoded by [d[i]] applied to the value
    read at [i], which is [undefined] for L <= i, at location [[i]]; when
    the positions before [i] decode, the failure reported is the error
    [d[i]] produces for [undefined], which for a [string] element is
    "expected string" with no got part. *)
Theorem tuple_short_array {T : Type} (pre : list (Dec.Decoder T)) (d : Dec.Decoder T)
  (post : list (Dec.Decoder T)) (elems : list value) (loc : string)
  (xs : list T) (e : exn) :
  (List.length elems <= List.length pre)%nat ->
  Dec.tuple pre (VArr elems) loc = Return xs ->
  d VUndefined (pushLocation loc (KNum (Z.of_nat (List.length pre)))) = Throw e ->
  Dec.tuple (pre ++ d :: post) (VArr elems) loc = Throw e
  /\ js_get (VArr elems) (KNum (Z.of_nat (List.length pre))) = Return VUndefined
  /\ Dec.string VUndefined (pushLocation loc (KNum (Z.of_nat (List.length pre))))
     = Throw (Error ("error at " ++ pushLocation loc (KNum (Z.of_nat (List.length pre)))
                     ++ ": expected string")).
Proof.
  intros Hlen Hpre Hd. split; [|split; [|reflexivity]].
  2:{ now rewrite js_get_array_index, nth_overflow. }
  rewrite tuple_on_array in *. unfold Array_map, Dec.Decoder in *.
  rewrite map_from_app, Hpre. cbn [bind map_from]. rewrite Nat.add_0_l.
  rewrite (nth_overflow elems VUndefined Hlen), Hd. reflexivity.
Qed.

Lemma tuple_short_array_witness :
  Dec.decodeAny (Dec.tuple [Dec.string; Dec.string]) (VArr [VStr "x"])
  = Throw (Error "error at [1]: expected string").
Proof.
  unfold Dec.decodeAny.
  apply (proj1 (tuple_short_array [Dec.string] Dec.string [] [VStr "x"] "root"
                  [VStr "x"] _ (le_n 1) eq_refl eq_refl)).
Defined.

Section TuplePositions.

Context {T : Type}.
Variables (obj : value) (loc : string).

Lemma map_from_positions_accept i (ds : list (Dec.Decoder T)) xs :
  positions_accept obj loc i ds xs ->
  map_from (fun decoder j =>
              e <- js_get obj (KNum (Z.of_nat j)) ;;
              Dec.decode decoder e (pushLocation loc (KNum (Z.of_nat j))))
           i ds
  = Return xs
  /\ List.length xs = List.length ds.
Proof.
  induction 1 as [i|i d ds v x xs Hget Hd _ [IH IHlen]].
  - split; reflexivity.
  - cbn [map_from List.length]. rewrite Hget. cbn [bind].
    unfold Dec.decode at 1. rewrite Hd. cbn [bind]. rewrite IH.
    split; [reflexivity | now rewrite IHlen].
Qed.

End TuplePositions.

(** C9: [tuple(d1..dN)] makes no array check: on any input whose positional
    lookups 0..N-1 yield values accepted by the element decoders, it
    returns the N decoded values in order. *)
Theorem tuple_accepts_any_indexable {T : Type} (ds : list (Dec.Decoder T))
  (obj : value) (loc : string) (xs : list T) :
  positions_accept obj loc 0 ds xs ->
  Dec.tuple ds obj loc = Return xs /\ List.length xs = List.length ds.
Proof.
  intros H. exact (map_from_positions_accept obj loc 0%nat ds xs H).
Qed.

Lemma tuple_accepts_any_indexable_witness :
  Dec.decodeAny (Dec.tuple [Dec.number; Dec.null_]) (VObj [("0", VNum 1); ("1", VNull)])
  = Return [VNum 1; VNull]
  /\ instanceof_Array (VObj [("0", VNum 1); ("1", VNull)]) = false
  /\ Dec.decodeAny (Dec.tuple [Dec.any; Dec.any]) (VStr "xy")
     = Return [VStr "x"; VStr "y"].
Proof.
  split; [|split; [reflexivity|]].
  - apply (tuple_accepts_any_indexable [Dec.number; Dec.null_]
             (VObj [("0", VNum 1); ("1", VNull)]) "root" [VNum 1; VNull]).
    apply (accept_cons _ _ 0%nat _ _ (VNum 1)); [reflexivity | reflexivity |].
    apply (accept_cons _ _ 1%nat _ _ VNull); [reflexivity | reflexivity |].
    apply accept_nil.
  - apply (tuple_accepts_any_indexable [Dec.any; Dec.any] (VStr "xy") "root"
             [VStr "x"; VStr "y"]).
    apply (accept_cons _ _ 0%nat _ _ (VStr "x")); [reflexivity | reflexivity |].
    apply (accept_cons _ _ 1%nat _ _ (VStr "y")); [reflexivity | reflexivity |].
    apply accept_nil.
Defined.

(** ** [oneOf] *)

Section Alternation.

Context {T : Type}.
Variables (obj : value) (loc : string).

Lemma try_each_skips_failures (pre rest : list (Dec.Decoder T)) :
  Forall (branch_fails obj loc) pre ->
  Dec.try_each (pre ++ rest) obj loc = Dec.try_each rest obj loc.
Proof.
  induction 1 as [|d pre [e Hd] _ IH]; [reflexivity|].
  rewrite <- app_comm_cons. cbn [Dec.try_each]. unfold Dec.decode.
  now rewrite Hd.
Qed.

Lemma try_each_first_success (d : Dec.Decoder T) (x : T) (post : list (Dec.Decoder T)) :
  d obj loc = Return x ->
  Dec.try_each (d :: post) obj loc = Return x.
Proof.
  intros Hd. cbn [Dec.try_each]. unfold Dec.decode. now rewrite Hd.
Qed.

Lemma oneOf_try_each (first : Dec.Decoder T) (rest : list (Dec.Decoder T)) :
  Dec.oneOf first rest obj loc = Dec.try_each (first :: rest) obj loc.
Proof. reflexivity. Qed.

End Alternation.

(** C6: [oneOf(first, rest...)] tries the branches in declared order
    starting with [first]; the result of the first branch that succeeds is
    returned, whatever the later branches are; when every branch fails the
    decode fails with "unexpected <kind>" at the location [oneOf] was called
    at, and nothing of the branch errors remains. *)
Theorem oneOf_first_success_or_generic_error {T : Type}
  (first : Dec.Decoder T) (rest : list (Dec.Decoder T)) (obj : value) (loc : string) :
  (forall pre d post x,
      first :: rest = (pre ++ d :: post)%list ->
      Forall (branch_fails obj loc) pre ->
      d obj loc = Return x ->
      Dec.oneOf first rest obj loc = Return x)
  /\ (Forall (branch_fails obj loc) (first :: rest) ->
      Dec.oneOf first rest obj loc
      = Throw (Error ("error at " ++ loc ++ ": unexpected " ++ prettyPrint obj))).
Proof.
  rewrite oneOf_try_each. split.
  - intros pre d post x -> Hpre Hd.
    rewrite (try_each_skips_failures obj loc pre _ Hpre).
    now apply try_each_first_success.
  - intros Hall.
    rewrite <- (app_nil_r (first :: rest)).
    now rewrite (try_each_skips_failures obj loc _ [] Hall).
Qed.

Lemma oneOf_first_success_or_generic_error_witness :
  Dec.decodeAny (Dec.oneOf Dec.string [Dec.number; Dec.any]) (VNum 5) = Return (VNum 5)
  /\ Dec.decodeAny (Dec.oneOf Dec.string [Dec.number]) (VBool true)
     = Throw (Error "error at root: unexpected boolean").
Proof.
  split.
  - apply (proj1 (oneOf_first_success_or_generic_error
                    Dec.string [Dec.number; Dec.any] (VNum 5) "root")
             [Dec.string] Dec.number [Dec.any] (VNum 5) eq_refl).
    + constructor; [eexists; reflexivity | constructor].
    + reflexivity.
  - apply (proj2 (oneOf_first_success_or_generic_error
                    Dec.string [Dec.number] (VBool true) "root")).
    constructor; [eexists; reflexivity|].
    constructor; [eexists; reflexivity | constructor].
Defined.

(** ** [andThen] *)

(** C8: in [andThen(first, continuation)] on input [v] at location [L], an
    error of [first] propagates unchanged; when [first] returns [x], the
    decoder [continuation(x)] is applied to the original input [v] at [L]
    and its outcome is the outcome of the whole. *)
Theorem andThen_redecodes_original_input {A B : Type}
  (first : Dec.Decoder A) (continuation : A -> Dec.Decoder B) (v : value) (L : string) :
  (forall e, first v L = Throw e -> Dec.andThen first continuation v L = Throw e)
  /\ (forall x, first v L = Return x ->
                Dec.andThen first continuation v L = continuation x v L).
Proof.
  unfold Dec.andThen, Dec.decode.
  split; intros r H; rewrite H; reflexivity.
Qed.

Lemma andThen_redecodes_original_input_witness :
  Dec.decodeAny (Dec.andThen (Dec.at_ [KStr "kind"] Dec.string) by_kind)
                (VObj [("kind", VStr "pair"); ("items", VArr [VNum 1; VNum 2])])
  = Return (VArr [VNum 1; VNum 2])
  /\ Dec.decodeAny (Dec.andThen (Dec.at_ [KStr "kind"] Dec.string) by_kind)
                   (VObj [("kind", VNum 7)])
     = Throw (Error "error at .kind: expected string, got number").
Proof.
  unfold Dec.decodeAny. split.
  - rewrite (proj2 (andThen_redecodes_original_input
                      (Dec.at_ [KStr "kind"] Dec.string) by_kind
                      (VObj [("kind", VStr "pair"); ("items", VArr [VNum 1; VNum 2])])
                      "root") (VStr "pair") eq_refl).
    reflexivity.
  - apply (proj1 (andThen_redecodes_original_input
                    (Dec.at_ [KStr "kind"] Dec.string) by_kind
                    (VObj [("kind", VNum 7)]) "root")).
    reflexivity.
Defined.

(** ** [at] *)

Section KeyPath.

Variables (obj : value) (loc : string).

Lemma at_step_present (result : value) (resultAt : string) (k : key) (v : value) :
  js_get result k = Return v ->
  v <> VUndefined ->
  Dec.at_step obj loc (result, resultAt) k = Return (v, pushLocation resultAt k).
Proof.
  intros Hget Hv. unfold Dec.at_step. rewrite Hget. cbn [bind].
  destruct v; try reflexivity. contradiction.
Qed.




Lemma foldM_walks v l ks r rl :
  walks v l ks r rl ->
  forall rest,
    foldM (Dec.at_step obj loc) (ks ++ rest) (v, l)
    = foldM (Dec.at_step obj loc) rest (r, rl).
Proof.
  induction 1 as [v l|v l k ks v' r rl Hget Hv _ IH]; intros rest.
  - reflexivity.
  - rewrite <- app_comm_cons. cbn [foldM].
    rewrite (at_step_present v l k v' Hget Hv). cbn [bind]. apply IH.
Qed.


Lemma at_walk_walks (keyPath : list key) r rl :
  walks obj loc keyPath r rl ->
  Dec.at_walk obj loc keyPath = Return (r, rl).
Proof.
  intros H. unfold Dec.at_walk.
  pose proof (foldM_walks obj loc keyPath r rl H []) as E.
  now rewrite app_nil_r in E.
Qed.

Lemma at_walk_stops (pre : list key) (k : key) (post : list key) r rl (e : exn) :
  walks obj loc pre r rl ->
  Dec.at_step obj loc (r, rl) k = Throw e ->
  Dec.at_walk obj loc (pre ++ k :: post) = Throw e.
Proof.
  intros H Hk. unfold Dec.at_walk.
  rewrite (foldM_walks obj loc pre r rl H). cbn [foldM]. now rewrite Hk.
Qed.

Lemma Throw_inj {T : Type} (e e' : exn) : @Throw T e = Throw e' -> e = e'.
Proof. now intros [=]. Qed.

Lemma js_get_throws (v : value) (k : key) (e : exn) :
  js_get v k = Throw e -> e = TypeError.
Proof.
  unfold js_get.
  destruct v; try (intros [= <-]; reflexivity);
    destruct (own_property _ _); discriminate.
Qed.




End KeyPath.

Lemma at_of_walk {T : Type} (keyPath : list key) (decoder : Dec.Decoder T)
  (obj : value) (loc : string) :
  Dec.at_ keyPath decoder obj loc
  = match Dec.at_walk obj loc keyPath with
    | Return (r, rl) => decoder r rl
    | Throw e => Throw e
    end.
Proof.
  unfold Dec.at_, Dec.decode.
  destruct (Dec.at_walk obj loc keyPath) as [[r rl]|e]; reflexivity.
Qed.






(** * Further properties of the module *)

(** ** Text of locations *)

Lemma length_append (a b : string) :
  String.length (a ++ b) = (String.length a + String.length b)%nat.
Proof.
  induction a as [|c a IH]; simpl; [reflexivity | now rewrite IH].
Qed.

Lemma append_cancel_l (p a b : string) : p ++ a = p ++ b -> a = b.
Proof.
  induction p as [|c p IH]; simpl; intros H; [assumption|].
  injection H as H. now apply IH.
Qed.

Lemma append_cancel_r (a b c : string) : a ++ c = b ++ c -> a = b.
Proof.
  revert b. induction a as [|x a IH]; intros [|y b] H; simpl in H.
  - reflexivity.
  - apply (f_equal String.length) in H. simpl in H. rewrite length_append in H. lia.
  - apply (f_equal String.length) in H. simpl in H. rewrite length_append in H. lia.
  - injection H as -> H. f_equal. now apply IH.
Qed.

Lemma append_assoc (a b c : string) : (a ++ b) ++ c = a ++ b ++ c.
Proof.
  induction a as [|x a IH]; simpl; [reflexivity | now rewrite IH].
Qed.

Lemma append_nil_r (a : string) : a ++ "" = a.
Proof.
  induction a as [|x a IH]; simpl; [reflexivity | now rewrite IH].
Qed.

Lemma pushLocation_segment (loc : string) (k : key) :
  pushLocation loc k = location_prefix loc ++ segment k.
Proof.
  destruct k as [s|n]; unfold segment, pushLocation; cbn [location_prefix String.eqb];
    [destruct (re_ident_plus s)|]; reflexivity.
Qed.

Lemma segment_head (k : key) :
  exists rest, segment k = String "." rest \/ segment k = String "[" rest.
Proof.
  destruct k as [s|n]; unfold segment, pushLocation; cbn [location_prefix String.eqb].
  - destruct (re_ident_plus s); eexists; [left | right]; reflexivity.
  - eexists; right; reflexivity.
Qed.

Lemma pushLocation_not_root (loc : string) (k : key) : pushLocation loc k <> "root".
Proof.
  rewrite pushLocation_segment.
  destruct (segment_head k) as [rest [-> | ->]];
    destruct (location_prefix loc) as [|a1 [|a2 [|a3 [|a4 [|a5 p]]]]];
    cbn [String.append]; intros E; injection E; intros; subst; discriminate.
Qed.

Lemma location_prefix_pushLocation (loc : string) (k : key) :
  location_prefix (pushLocation loc k) = pushLocation loc k.
Proof.
  unfold location_prefix at 1.
  destruct (String.eqb_spec (pushLocation loc k) "root") as [E|E]; [|reflexivity].
  now apply pushLocation_not_root in E.
Qed.

(** X1: a location made by [pushLocation] is never the root marker, so
    the next [pushLocation] keeps it whole as the parent prefix. *)
Theorem pushLocation_never_root (loc : string) (k : key) :
  pushLocation loc k <> "root"
  /\ location_prefix (pushLocation loc k) = pushLocation loc k.
Proof.
  split; [apply pushLocation_not_root | apply location_prefix_pushLocation].
Qed.

(** X2: the location accumulated over a non-empty key path is the prefix
    of the starting location (empty for the root) followed by the segments
    of the keys in order. *)
Theorem fold_pushLocation_render_path (k : key) (ks : list key) (loc : string) :
  fold_left pushLocation (k :: ks) loc = location_prefix loc ++ render_path (k :: ks).
Proof.
  revert k loc. induction ks as [|k' ks IH]; intros k loc.
  - cbn [fold_left render_path]. rewrite pushLocation_segment.
    now rewrite append_nil_r.
  - change (fold_left pushLocation (k :: k' :: ks) loc)
      with (fold_left pushLocation (k' :: ks) (pushLocation loc k)).
    rewrite IH. rewrite (location_prefix_pushLocation loc k).
    rewrite pushLocation_segment. cbn [render_path]. now rewrite append_assoc.
Qed.

(** ** Keys can be read back from their rendering *)

Lemma quote_units_inj (s1 s2 : string) :
  quote_units s1 = quote_units s2 -> s1 = s2.
Proof.
  revert s2. induction s1 as [|c1 s1 IH]; intros [|c2 s2] H; cbn [quote_units] in H.
  - reflexivity.
  - apply (f_equal first_unit) in H. rewrite first_unit_quote_unit in H. discriminate H.
  - apply (f_equal first_unit) in H. rewrite first_unit_quote_unit in H. discriminate H.
  - apply (f_equal first_unit) in H. rewrite !first_unit_quote_unit in H.
    injection H as -> H. f_equal. now apply IH.
Qed.

Lemma JSON_stringify_inj (s1 s2 : string) :
  JSON_stringify s1 = JSON_stringify s2 -> s1 = s2.
Proof.
  unfold JSON_stringify. intros H.
  apply append_cancel_l, append_cancel_r in H. now apply quote_units_inj.
Qed.

Lemma re_ident_star_head (s : string) :
  re_ident_star s = true -> exists c r, s = String c r /\ ident_start c = true.
Proof.
  destruct s as [|c r]; cbn [re_ident_star]; [discriminate|].
  intros H. apply andb_true_iff in H. destruct H as [H _]. eauto.
Qed.

Lemma ident_start_not_dquote (c : ascii) (r t : string) :
  ident_start c = true -> String c r <> dquote ++ t.
Proof.
  intros H E. unfold dquote in E. cbn [String.append] in E.
  injection E as -> _. discriminate H.
Qed.

(** X3: [escapeKey] never gives two different keys the same text, so a key
    listed in a message can be read back. *)
Theorem escapeKey_injective (k1 k2 : string) :
  escapeKey k1 = escapeKey k2 -> k1 = k2.
Proof.
  unfold escapeKey.
  destruct (re_ident_star k1) eqn:E1, (re_ident_star k2) eqn:E2; intros H.
  - exact H.
  - destruct (re_ident_star_head k1 E1) as (c & r & -> & Hc).
    exfalso. unfold JSON_stringify in H.
    exact (ident_start_not_dquote c r _ Hc H).
  - destruct (re_ident_star_head k2 E2) as (c & r & -> & Hc).
    exfalso. unfold JSON_stringify in H. symmetry in H.
    exact (ident_start_not_dquote c r _ Hc H).
  - now apply JSON_stringify_inj.
Qed.

Lemma escapeKey_injective_witness :
  "a b" = "a b" /\ escapeKey "a b" <> escapeKey "a_b".
Proof.
  split.
  - apply (escapeKey_injective "a b" "a b"). reflexivity.
  - intros H. apply escapeKey_injective in H. discriminate H.
Defined.

Lemma num_to_string_inj (n1 n2 : Z) :
  num_to_string n1 = num_to_string n2 -> n1 = n2.
Proof.
  intros H. apply DecimalZ.to_int_inj.
  pose proof (int_of_num_to_string n1) as H1.
  rewrite H, int_of_num_to_string in H1. now injection H1.
Qed.

Lemma num_to_string_not_quoted (n : Z) (t u : string) :
  num_to_string n ++ u <> String "034" t.
Proof.
  intros H. pose proof (int_of_num_to_string n) as Hn.
  destruct (num_to_string n) as [|c r]; [discriminate Hn|].
  cbn [String.append] in H. injection H as -> _.
  cbn in Hn. destruct (NilEmpty.uint_of_string r); discriminate Hn.
Qed.

(** X4: under one parent location, [pushLocation] never renders two
    different keys alike: an index and a string key always differ, and so
    do two different indices and two different string keys. *)
Theorem pushLocation_injective (loc : string) (k1 k2 : key) :
  pushLocation loc k1 = pushLocation loc k2 -> k1 = k2.
Proof.
  unfold pushLocation. cbv zeta. intros H.
  destruct k1 as [s1|n1], k2 as [s2|n2].
  - destruct (re_ident_plus s1), (re_ident_plus s2);
      apply append_cancel_l in H; cbn [String.append] in H.
    + now injection H as ->.
    + discriminate H.
    + discriminate H.
    + injection H as H. do 2 apply append_cancel_r in H.
      now rewrite (quote_units_inj s1 s2 H).
  - destruct (re_ident_plus s1); apply append_cancel_l in H; cbn [String.append] in H.
    + discriminate H.
    + injection H as H. symmetry in H.
      exfalso. exact (num_to_string_not_quoted n2 _ _ H).
  - destruct (re_ident_plus s2); apply append_cancel_l in H; cbn [String.append] in H.
    + discriminate H.
    + injection H as H.
      exfalso. exact (num_to_string_not_quoted n1 _ _ H).
  - apply append_cancel_l in H. cbn [String.append] in H. injection H as H.
    apply append_cancel_r in H. now rewrite (num_to_string_inj n1 n2 H).
Qed.

Lemma pushLocation_injective_witness :
  KNum 1 = KNum 1 /\ pushLocation ".xs" (KNum 1) <> pushLocation ".xs" (KStr "1").
Proof.
  split.
  - apply (pushLocation_injective ".xs" (KNum 1) (KNum 1)). reflexivity.
  - intros H. apply pushLocation_injective in H. discriminate H.
Defined.

(** ** Kinds and primitive decoders *)

(** X5: [prettyPrint] tells apart what [typeof] lumps together: it answers
    "null" only for [null], "array" only for an array and "object" only for
    a record. *)
Theorem prettyPrint_kinds (v : value) :
  (prettyPrint v = "null" <-> v = VNull)
  /\ (prettyPrint v = "array" <-> exists elems, v = VArr elems)
  /\ (prettyPrint v = "object" <-> exists props, v = VObj props).
Proof.
  repeat split; intros H;
    try (destruct v; cbn in H; try discriminate H; eauto; fail);
    try (destruct H as [x ->]; reflexivity);
    try (subst v; reflexivity).
Qed.

Lemma typeof_string_iff (v : value) :
  (typeof v =? "string")%string = true <-> exists s, v = VStr s.
Proof.
  split; [destruct v; cbn; intros H; try discriminate H; eauto | intros [s ->]; reflexivity].
Qed.

Lemma typeof_number_iff (v : value) :
  (typeof v =? "number")%string = true <-> exists n, v = VNum n.
Proof.
  split; [destruct v; cbn; intros H; try discriminate H; eauto | intros [s ->]; reflexivity].
Qed.

Lemma typeof_boolean_iff (v : value) :
  (typeof v =? "boolean")%string = true <-> exists b, v = VBool b.
Proof.
  split; [destruct v; cbn; intros H; try discriminate H; eauto | intros [s ->]; reflexivity].
Qed.

(** X6: each primitive decoder returns exactly the inputs of its own kind,
    unchanged ([string] the strings, [number] the numbers, [boolean] the
    booleans, [null_] only [null]), and on any other input that is not
    [undefined] fails with its name as expected and the kind of the input
    as got. *)
Theorem primitives_accept_their_kind (v x : value) (loc : string) :
  (Dec.string v loc = Return x <-> (exists s, v = VStr s) /\ x = v)
  /\ (Dec.number v loc = Return x <-> (exists n, v = VNum n) /\ x = v)
  /\ (Dec.boolean v loc = Return x <-> (exists b, v = VBool b) /\ x = v)
  /\ (Dec.null_ v loc = Return x <-> v = VNull /\ x = v)
  /\ (v <> VUndefined ->
      ((forall s, v <> VStr s) ->
       Dec.string v loc
       = Throw (Error ("error at " ++ loc ++ ": expected string, got " ++ prettyPrint v)))
      /\ ((forall n, v <> VNum n) ->
          Dec.number v loc
          = Throw (Error ("error at " ++ loc ++ ": expected number, got " ++ prettyPrint v)))
      /\ ((forall b, v <> VBool b) ->
          Dec.boolean v loc
          = Throw (Error ("error at " ++ loc ++ ": expected boolean, got " ++ prettyPrint v)))
      /\ (v <> VNull ->
          Dec.null_ v loc
          = Throw (Error ("error at " ++ loc ++ ": expected null, got " ++ prettyPrint v)))).
Proof.
  unfold Dec.string, Dec.number, Dec.boolean, Dec.null_.
  split; [|split; [|split; [|split]]].
  - destruct (typeof v =? "string")%string eqn:E; cbn [negb]; split.
    + intros [= <-]. split; [now apply typeof_string_iff | reflexivity].
    + now intros [_ ->].
    + discriminate.
    + intros [H _]. apply typeof_string_iff in H. congruence.
  - destruct (typeof v =? "number")%string eqn:E; cbn [negb]; split.
    + intros [= <-]. split; [now apply typeof_number_iff | reflexivity].
    + now intros [_ ->].
    + discriminate.
    + intros [H _]. apply typeof_number_iff in H. congruence.
  - destruct (typeof v =? "boolean")%string eqn:E; cbn [negb]; split.
    + intros [= <-]. split; [now apply typeof_boolean_iff | reflexivity].
    + now intros [_ ->].
    + discriminate.
    + intros [H _]. apply typeof_boolean_iff in H. congruence.
  - destruct v; cbn; split; try discriminate; try (intros [H _]; discriminate H);
      try (intros [= <-]; split; reflexivity); now intros [_ ->].
  - intros Hu. repeat split; intros H; destruct v; try contradiction;
      try reflexivity; exfalso; eapply H; reflexivity.
Qed.

Lemma primitives_accept_their_kind_witness :
  Dec.string (VNum 3) ".n" = Throw (Error "error at .n: expected string, got number")
  /\ Dec.null_ (VArr []) "[0]" = Throw (Error "error at [0]: expected null, got array").
Proof.
  split.
  - destruct (primitives_accept_their_kind (VNum 3) (VNum 3) ".n") as (_ & _ & _ & _ & H).
    destruct H as (H & _); [discriminate|]. apply H. discriminate.
  - destruct (primitives_accept_their_kind (VArr []) (VArr []) "[0]")
      as (_ & _ & _ & _ & H).
    destruct H as (_ & _ & _ & H); [discriminate|]. apply H. discriminate.
Defined.

(** ** [equal] *)

Lemma strict_equal_iff (obj : value) (p : primitive) :
  strict_equal obj p = true <-> obj = of_primitive p.
Proof.
  destruct obj, p; cbn; split; intros H; try discriminate H; try reflexivity.
  - f_equal. now apply Bool.eqb_prop.
  - injection H as ->. apply Bool.eqb_reflx.
  - f_equal. now apply Z.eqb_eq.
  - injection H as ->. apply Z.eqb_refl.
  - f_equal. now apply String.eqb_eq.
  - injection H as ->. apply String.eqb_refl.
Qed.

(** X7: [equal(p)] for a primitive [p] returns exactly the input that is
    [p], unchanged; on any other input that is not [undefined] it fails
    with the JSON text of [p] as expected and the kind of the input as got. *)
Theorem equal_accepts_only_its_value (p : primitive) (v x : value) (loc : string) :
  (Dec.equal p v loc = Return x <-> v = of_primitive p /\ x = v)
  /\ (v <> of_primitive p -> v <> VUndefined ->
      Dec.equal p v loc
      = Throw (Error ("error at " ++ loc ++ ": expected " ++ JSON_stringify_primitive p
                      ++ ", got " ++ prettyPrint v))).
Proof.
  unfold Dec.equal. destruct (strict_equal v p) eqn:E; cbn [negb].
  - apply strict_equal_iff in E. split.
    + split; [intros [= <-]; now split | now intros [_ ->]].
    + intros H. contradiction.
  - assert (Hne : v <> of_primitive p).
    { intros H. apply strict_equal_iff in H. congruence. }
    split.
    + split; [discriminate | intros [H _]; contradiction].
    + intros _ Hu. now rewrite decoderError_got.
Qed.

Lemma equal_accepts_only_its_value_witness :
  Dec.equal (PStr "on") (VStr "off") ".mode"
  = Throw (Error ("error at .mode: expected " ++ dquote ++ "on" ++ dquote ++ ", got string")).
Proof.
  apply (proj2 (equal_accepts_only_its_value (PStr "on") (VStr "off") (VStr "off") ".mode"));
    discriminate.
Defined.

(** X8: [equal(null)] and [null_()] are the same decoder: the same outcome,
    with the same message, on every input at every location. *)
Theorem equal_null_is_null_ : same_decoder (Dec.equal PNull) Dec.null_.
Proof.
  intros obj loc. destruct obj; reflexivity.
Qed.

(** ** [array] and [tuple], position by position *)

Lemma map_from_inv {A B : Type} (f : A -> nat -> outcome B) (l : list A) :
  forall i xs,
    map_from f i l = Return xs ->
    List.length xs = List.length l
    /\ forall j a, nth_error l j = Some a ->
                   exists b, nth_error xs j = Some b /\ f a (i + j)%nat = Return b.
Proof.
  induction l as [|a0 l IH]; intros i xs; cbn [map_from].
  - intros [= <-]. split; [reflexivity|]. intros [|j] a H; discriminate H.
  - destruct (f a0 i) as [b0|e] eqn:E0; cbn [bind]; [|discriminate].
    destruct (map_from f (S i) l) as [bs|e] eqn:E; cbn [bind]; [|discriminate].
    intros [= <-]. destruct (IH (S i) bs E) as [Hlen Hnth].
    split; [cbn [List.length]; now rewrite Hlen|].
    intros [|j] a H; cbn [nth_error] in *.
    + injection H as <-. exists b0. now rewrite Nat.add_0_r.
    + destruct (Hnth j a H) as (b & Hb & Hf). exists b.
      split; [assumption|]. now rewrite Nat.add_succ_r.
Qed.

Lemma map_from_throw_inv {A B : Type} (f : A -> nat -> outcome B) (l : list A) :
  forall i e,
    map_from f i l = Throw e ->
    exists j a, nth_error l j = Some a /\ f a (i + j)%nat = Throw e.
Proof.
  induction l as [|a0 l IH]; intros i e; cbn [map_from]; [discriminate|].
  destruct (f a0 i) as [b0|e0] eqn:E0; cbn [bind].
  - destruct (map_from f (S i) l) as [bs|e1] eqn:E; cbn [bind]; [discriminate|].
    intros [= ->]. destruct (IH (S i) e E) as (j & a & Hj & Hf).
    exists (S j), a. split; [assumption|]. now rewrite Nat.add_succ_r.
  - intros [= ->]. exists 0%nat, a0. split; [reflexivity|]. now rewrite Nat.add_0_r.
Qed.

Lemma map_from_ext_in {A B : Type} (f g : A -> nat -> outcome B) (l : list A) :
  forall i,
    (forall a j, (i <= j < i + List.length l)%nat -> f a j = g a j) ->
    map_from f i l = map_from g i l.
Proof.
  induction l as [|a l IH]; intros i H; cbn [map_from]; [reflexivity|].
  cbn [List.length] in H. rewrite (H a i) by lia.
  rewrite (IH (S i)); [reflexivity|]. intros a' j Hj. apply H. lia.
Qed.

Lemma map_from_first_throw {A B : Type} (f : A -> nat -> outcome B)
  (pre : list A) (a : A) (post : list A) (i : nat) (xs : list B) (e : exn) :
  map_from f i pre = Return xs ->
  f a (i + List.length pre)%nat = Throw e ->
  map_from f i (pre ++ a :: post) = Throw e.
Proof.
  intros Hpre Ha. rewrite map_from_app, Hpre. cbn [bind map_from]. now rewrite Ha.
Qed.

(** X9: [array(element)] accepts arrays only: any input that is not an
    array fails with expected "array" and the input as got, whatever
    [element] is. *)
Theorem array_rejects_non_arrays {T : Type} (element : Dec.Decoder T) (v : value)
  (loc : string) :
  (forall elems, v <> VArr elems) ->
  Dec.array element v loc
  = Throw (decoderError {| err_at := loc; expected := "array"; got := v |})
  /\ forall xs, Dec.array element v loc <> Return xs.
Proof.
  intros H. destruct v; try (split; [reflexivity | discriminate]).
  exfalso. eapply H. reflexivity.
Qed.

Lemma array_rejects_non_arrays_witness :
  Dec.decodeAny (Dec.array Dec.any) (VObj [("0", VNum 1)])
  = Throw (Error "error at root: expected array, got object").
Proof.
  apply (proj1 (array_rejects_non_arrays Dec.any (VObj [("0", VNum 1)]) "root"
                  ltac:(discriminate))).
Defined.

(** X10: when [array(element)] returns, the result has the length of the
    input array and its entry at every index [i] is what [element] returns
    for the input element at [i], decoded at the location of index [i]. *)
Theorem array_decodes_elementwise {T : Type} (element : Dec.Decoder T)
  (elems : list value) (loc : string) (xs : list T) :
  Dec.array element (VArr elems) loc = Return xs ->
  List.length xs = List.length elems
  /\ forall i v, nth_error elems i = Some v ->
                 exists x, nth_error xs i = Some x
                           /\ element v (pushLocation loc (KNum (Z.of_nat i))) = Return x.
Proof.
  intros H. unfold Dec.array, Array_map in H.
  destruct (map_from_inv _ elems 0%nat xs H) as [Hlen Hnth].
  split; [exact Hlen|]. intros i v Hi.
  destruct (Hnth i v Hi) as (x & Hx & Hd). exists x. split; [exact Hx | exact Hd].
Qed.

Lemma array_decodes_elementwise_witness :
  List.length [VNum 1; VNum 2] = List.length [VNum 1; VNum 2]
  /\ forall i v, nth_error [VNum 1; VNum 2] i = Some v ->
                 exists x, nth_error [VNum 1; VNum 2] i = Some x
                           /\ Dec.number v (pushLocation "root" (KNum (Z.of_nat i)))
                              = Return x.
Proof.
  apply (array_decodes_elementwise Dec.number [VNum 1; VNum 2] "root" [VNum 1; VNum 2]).
  reflexivity.
Defined.

(** X11: [array(element)] stops at the first element that fails: when the
    elements before position [i] decode and the element at [i] fails, the
    whole decode fails with that element's error, whatever follows. *)
Theorem array_first_failure {T : Type} (element : Dec.Decoder T)
  (pre : list value) (v : value) (post : list value) (loc : string)
  (xs : list T) (e : exn) :
  Dec.array element (VArr pre) loc = Return xs ->
  element v (pushLocation loc (KNum (Z.of_nat (List.length pre)))) = Throw e ->
  Dec.array element (VArr (pre ++ v :: post)) loc = Throw e.
Proof.
  unfold Dec.array, Array_map, Dec.decode. intros Hpre Hv.
  now apply (map_from_first_throw _ pre v post 0%nat xs e Hpre).
Qed.

Lemma array_first_failure_witness :
  Dec.decodeAny (Dec.array Dec.number) (VArr [VNum 1; VNum 2; VStr "x"; VBool true])
  = Throw (Error "error at [2]: expected number, got string").
Proof.
  apply (array_first_failure Dec.number [VNum 1; VNum 2] (VStr "x") [VBool true]
           "root" [VNum 1; VNum 2]); reflexivity.
Defined.

Lemma map_from_return {A : Type} (f : A -> nat -> outcome A) (l : list A) :
  forall i, (forall a j, f a j = Return a) -> map_from f i l = Return l.
Proof.
  induction l as [|a l IH]; intros i H; cbn [map_from]; [reflexivity|].
  rewrite H. cbn [bind]. now rewrite (IH (S i) H).
Qed.

(** X12: [array(any())] returns the elements of every array unchanged. *)
Theorem array_any_identity (elems : list value) (loc : string) :
  Dec.array Dec.any (VArr elems) loc = Return elems.
Proof.
  unfold Dec.array, Array_map. now apply map_from_return.
Qed.

(** X13: when [tuple(d1..dN)] returns, the result has exactly N entries and
    entry [i] is what [d[i]] returns for [obj[i]] at the location of index
    [i]. *)
Theorem tuple_decodes_positionwise {T : Type} (ds : list (Dec.Decoder T))
  (obj : value) (loc : string) (xs : list T) :
  Dec.tuple ds obj loc = Return xs ->
  List.length xs = List.length ds
  /\ forall i d, nth_error ds i = Some d ->
                 exists v x, js_get obj (KNum (Z.of_nat i)) = Return v
                             /\ d v (pushLocation loc (KNum (Z.of_nat i))) = Return x
                             /\ nth_error xs i = Some x.
Proof.
  intros H. unfold Dec.tuple, Array_map in H.
  destruct (map_from_inv _ ds 0%nat xs H) as [Hlen Hnth].
  split; [exact Hlen|]. intros i d Hi.
  destruct (Hnth i d Hi) as (x & Hx & Hd). cbn [Nat.add] in Hd.
  destruct (js_get obj (KNum (Z.of_nat i))) as [v|e]; cbn [bind] in Hd; [|discriminate].
  exists v, x. repeat split; assumption.
Qed.

Lemma tuple_decodes_positionwise_witness :
  List.length [VStr "a"] = List.length [Dec.string]
  /\ forall i d, nth_error [Dec.string] i = Some d ->
                 exists v x, js_get (VArr [VStr "a"; VNum 7]) (KNum (Z.of_nat i)) = Return v
                             /\ d v (pushLocation "root" (KNum (Z.of_nat i))) = Return x
                             /\ nth_error [VStr "a"] i = Some x.
Proof.
  apply (tuple_decodes_positionwise [Dec.string] (VArr [VStr "a"; VNum 7]) "root").
  reflexivity.
Defined.

(** X14: [tuple(d1..dN)] reads positions 0..N-1 only: elements of an array
    beyond the N-th do not change the outcome. *)
Theorem tuple_ignores_extra_elements {T : Type} (ds : list (Dec.Decoder T))
  (elems extra : list value) (loc : string) :
  (List.length ds <= List.length elems)%nat ->
  Dec.tuple ds (VArr (elems ++ extra)) loc = Dec.tuple ds (VArr elems) loc.
Proof.
  intros Hlen. rewrite !tuple_on_array. unfold Array_map, Dec.Decoder in *.
  apply map_from_ext_in. intros d j Hj.
  rewrite app_nth1 by lia. reflexivity.
Qed.

Lemma tuple_ignores_extra_elements_witness :
  Dec.tuple [Dec.string] (VArr [VStr "a"; VNum 7; VNull]) "root" = Return [VStr "a"].
Proof.
  exact (eq_trans
           (tuple_ignores_extra_elements [Dec.string] [VStr "a"] [VNum 7; VNull] "root"
              (le_n 1))
           eq_refl).
Defined.

(** ** [object]: what a success means *)

Lemma foldM_object_entry_inv {A : Type} (obj : value) (loc : string)
  (ds : list (string * Dec.Decoder A)) :
  Forall (fun entry => standard_member_name (fst entry) = false) ds ->
  forall vs0 ms0 vs1 ms1,
    foldM (Dec.object_entry obj loc) ds (vs0, ms0) = Return (vs1, ms1) ->
    exists vs ms, entries_pass obj loc ds vs ms
                  /\ vs1 = (vs0 ++ vs)%list /\ ms1 = (ms0 ++ ms)%list.
Proof.
  induction 1 as [|[k d] ds Hk _ IH]; intros vs0 ms0 vs1 ms1; cbn [foldM].
  - intros [= <- <-]. exists [], []. rewrite !app_nil_r. repeat split. constructor.
  - cbn [fst] in Hk. unfold Dec.object_entry at 1.
    destruct (js_in k obj) as [[|]|e] eqn:Hin; cbn [bind]; [| |discriminate].
    + destruct (js_get obj (KStr k)) as [field|e] eqn:Hget; cbn [bind]; [|discriminate].
      unfold Dec.decode.
      destruct (d field (pushLocation loc (KStr k))) as [x|e] eqn:Hd; cbn [bind];
        [|discriminate].
      intros H. destruct (IH _ _ _ _ H) as (vs & ms & Hp & -> & ->).
      exists (x :: vs), ms. rewrite <- app_assoc. repeat split.
      now apply (pass_decoded obj loc k d ds field x).
    + intros H. destruct (IH _ _ _ _ H) as (vs & ms & Hp & -> & ->).
      exists vs, (k :: ms). rewrite <- app_assoc. repeat split.
      now apply pass_absent.
Qed.

Lemma entries_pass_length {A : Type} (obj : value) (loc : string)
  (ds : list (string * Dec.Decoder A)) vs ms :
  entries_pass obj loc ds vs ms ->
  (List.length vs + List.length ms = List.length ds)%nat.
Proof.
  induction 1; cbn [List.length]; lia.
Qed.

(** X15: [object(entry1..entryN, cons)], with declared keys none of which
    is a [standard_member_name], returns only when the input has type tag
    "object", every declared key is present (an own member of the input)
    and every field decodes; the result is [cons] applied to exactly N
    decoded fields, in declared order. *)
Theorem object_success_means_all_fields {A B : Type}
  (ds : list (string * Dec.Decoder A)) (cons : list A -> B) (obj : value)
  (loc : string) (y : B) :
  Forall (fun entry => standard_member_name (fst entry) = false) ds ->
  Dec.object ds cons obj loc = Return y ->
  typeof obj = "object"
  /\ exists vs, entries_pass obj loc ds vs []
                /\ List.length vs = List.length ds
                /\ y = cons vs.
Proof.
  intros Hkeys. unfold Dec.object.
  destruct (String.eqb_spec (typeof obj) "object") as [Ht|Ht]; cbn [negb]; [|discriminate].
  destruct (foldM (Dec.object_entry obj loc) ds ([], [])) as [[vs1 ms1]|e] eqn:E;
    cbn [bind]; [|discriminate].
  destruct (foldM_object_entry_inv obj loc ds Hkeys _ _ _ _ E) as (vs & ms & Hp & -> & ->).
  cbn [List.app]. destruct ms as [|m ms]; cbn; [|discriminate].
  intros [= <-]. split; [exact Ht|]. exists vs. repeat split; [exact Hp|].
  pose proof (entries_pass_length obj loc ds vs [] Hp) as Hl. cbn [List.length] in Hl. lia.
Qed.

Lemma object_success_means_all_fields_witness :
  typeof (VObj [("id", VNum 4); ("tag", VStr "t")]) = "object"
  /\ exists vs, entries_pass (VObj [("id", VNum 4); ("tag", VStr "t")]) "root"
                             [("tag", Dec.string); ("id", Dec.number)] vs []
                /\ List.length vs = 2%nat
                /\ VArr [VStr "t"; VNum 4] = VArr vs.
Proof.
  apply (object_success_means_all_fields
           [("tag", Dec.string); ("id", Dec.number)] VArr
           (VObj [("id", VNum 4); ("tag", VStr "t")]) "root" (VArr [VStr "t"; VNum 4])).
  - repeat constructor.
  - reflexivity.
Defined.

(** ** [dict] *)

(** X16: [dict(value)] accepts records only: [null], arrays, primitives
    and [undefined] all fail with expected "object" and the input as got,
    before any member is looked at. *)
Theorem dict_rejects_non_records {T : Type} (d : Dec.Decoder T) (v : value)
  (loc : string) :
  (forall props, v <> VObj props) ->
  Dec.dict d v loc
  = Throw (decoderError {| err_at := loc; expected := "object"; got := v |}).
Proof.
  intros H. destruct v; try reflexivity. exfalso. eapply H. reflexivity.
Qed.

Lemma dict_rejects_non_records_witness :
  Dec.decodeAny (Dec.dict Dec.any) VNull
  = Throw (Error "error at root: expected object, got null")
  /\ Dec.decodeAny (Dec.dict Dec.any) (VArr [VNum 1])
     = Throw (Error "error at root: expected object, got array").
Proof.
  split.
  - apply (dict_rejects_non_records Dec.any VNull "root"). discriminate.
  - apply (dict_rejects_non_records Dec.any (VArr [VNum 1]) "root"). discriminate.
Defined.

Lemma assoc_app_fresh (k : string) (v : value) (done rest : list (string * value)) :
  ~ In k (List.map fst done) ->
  assoc k (done ++ (k, v) :: rest) = Some v.
Proof.
  induction done as [|[k0 v0] done IH]; cbn [List.app assoc List.map fst In]; intros H.
  - now rewrite String.eqb_refl.
  - destruct (String.eqb_spec k0 k) as [->|Hne]; [exfalso; apply H; now left|].
    apply IH. intros Hin. apply H. now right.
Qed.

Lemma assign_fresh {T : Type} (acc : list (string * T)) (k : string) (x : T) :
  ~ In k (List.map fst acc) ->
  assign acc k x = (acc ++ [(k, x)])%list.
Proof.
  induction acc as [|[k0 y] acc IH]; cbn [List.app assign List.map fst In]; intros H.
  - reflexivity.
  - destruct (String.eqb_spec k0 k) as [->|Hne]; [exfalso; apply H; now left|].
    rewrite IH; [reflexivity|]. intros Hin. apply H. now right.
Qed.

Lemma member_decodes_keys {T : Type} (d : Dec.Decoder T) (loc : string)
  (ms : list (string * value)) (rs : list (string * T)) :
  Forall2 (member_decodes d loc) ms rs -> List.map fst rs = List.map fst ms.
Proof.
  induction 1 as [|m r ms rs [Hk _] _ IH]; cbn [List.map]; [reflexivity|].
  now rewrite Hk, IH.
Qed.

Section DictLoop.

Context {T : Type}.
Variables (d : Dec.Decoder T) (loc : string) (props : list (string * value)).
Hypothesis props_nodup : NoDup (List.map fst props).

Lemma dict_member_step (done rest : list (string * value)) (k : string) (v : value)
  (acc : list (string * T)) :
  props = (done ++ (k, v) :: rest)%list ->
  List.map fst acc = List.map fst done ->
  Dec.dict_member d (VObj props) loc acc k
  = x <- d v (pushLocation loc (KStr k)) ;; Return (acc ++ [(k, x)])%list.
Proof.
  intros Hprops Hacc.
  assert (Hfresh : ~ In k (List.map fst done)).
  { pose proof props_nodup as Hn. rewrite Hprops, map_app in Hn. cbn [List.map fst] in Hn.
    apply NoDup_remove_2 in Hn. intros Hin. apply Hn. apply in_or_app. now left. }
  unfold Dec.dict_member, js_get, own_property, prop_name.
  rewrite Hprops at 1. rewrite (assoc_app_fresh k v done rest Hfresh). cbn [bind].
  unfold Dec.decode. destruct (d v (pushLocation loc (KStr k))) as [x|e]; cbn [bind];
    [|reflexivity].
  rewrite assign_fresh; [reflexivity | now rewrite Hacc].
Qed.

Lemma dict_loop_returns (rest : list (string * value)) :
  forall done acc res,
    props = (done ++ rest)%list ->
    List.map fst acc = List.map fst done ->
    Forall2 (member_decodes d loc) rest res ->
    foldM (Dec.dict_member d (VObj props) loc) (List.map fst rest) acc
    = Return (acc ++ res)%list.
Proof.
  induction rest as [|[k v] rest IH]; intros done acc res Hprops Hacc Hres.
  - inversion Hres. cbn [List.map foldM]. now rewrite app_nil_r.
  - inversion Hres as [|m r ms rs [Hk Hd] Hrest]. destruct r as [k' x].
    cbn [fst snd] in Hk, Hd. subst k'.
    cbn [List.map fst foldM].
    rewrite (dict_member_step done rest k v acc Hprops Hacc), Hd. cbn [bind].
    rewrite (IH (done ++ [(k, v)])%list (acc ++ [(k, x)])%list rs).
    + now rewrite <- app_assoc.
    + now rewrite <- app_assoc.
    + rewrite !map_app. now rewrite Hacc.
    + assumption.
Qed.

Lemma dict_loop_inv (rest : list (string * value)) :
  forall done acc out,
    props = (done ++ rest)%list ->
    List.map fst acc = List.map fst done ->
    foldM (Dec.dict_member d (VObj props) loc) (List.map fst rest) acc = Return out ->
    exists res, out = (acc ++ res)%list /\ Forall2 (member_decodes d loc) rest res.
Proof.
  induction rest as [|[k v] rest IH]; intros done acc out Hprops Hacc.
  - cbn [List.map foldM]. intros [= <-]. exists []. rewrite app_nil_r. split; constructor.
  - cbn [List.map fst foldM].
    rewrite (dict_member_step done rest k v acc Hprops Hacc).
    destruct (d v (pushLocation loc (KStr k))) as [x|e] eqn:Hd; cbn [bind]; [|discriminate].
    intros H.
    destruct (IH (done ++ [(k, v)])%list (acc ++ [(k, x)])%list out) as (res & -> & Hres).
    + now rewrite <- app_assoc.
    + rewrite !map_app. now rewrite Hacc.
    + exact H.
    + exists ((k, x) :: res). rewrite <- app_assoc. split; [reflexivity|].
      constructor; [split; [reflexivity | exact Hd] | exact Hres].
Qed.

Lemma dict_loop_aborts (pre post : list (string * value)) (k : string) (v : value)
  (res : list (string * T)) (e : exn) :
  props = (pre ++ (k, v) :: post)%list ->
  Forall2 (member_decodes d loc) pre res ->
  d v (pushLocation loc (KStr k)) = Throw e ->
  foldM (Dec.dict_member d (VObj props) loc) (List.map fst props) [] = Throw e.
Proof.
  intros Hprops Hpre Hd.
  assert (Hgen : forall rest done acc res',
             props = (done ++ rest ++ (k, v) :: post)%list ->
             List.map fst acc = List.map fst done ->
             Forall2 (member_decodes d loc) rest res' ->
             foldM (Dec.dict_member d (VObj props) loc)
                   (List.map fst (rest ++ (k, v) :: post)) acc = Throw e).
  { induction rest as [|[k0 v0] rest IH]; intros done acc res' Hp Hacc Hres.
    - cbn [List.app List.map fst foldM].
      rewrite (dict_member_step done post k v acc Hp Hacc), Hd. reflexivity.
    - inversion Hres as [|m r ms rs [Hk Hd0] Hrest].
      destruct r as [k' x]. cbn [fst snd] in Hk, Hd0. subst k'.
      rewrite <- app_comm_cons. cbn [List.map fst foldM].
      rewrite (dict_member_step done (rest ++ (k, v) :: post) k0 v0 acc Hp Hacc), Hd0.
      cbn [bind].
      apply (IH (done ++ [(k0, v0)])%list (acc ++ [(k0, x)])%list rs).
      + now rewrite <- app_assoc.
      + rewrite !map_app. now rewrite Hacc.
      + assumption. }
  rewrite Hprops at 2. apply (Hgen pre [] [] res); [exact Hprops | reflexivity | exact Hpre].
Qed.

End DictLoop.

(** X17: on a record (distinct keys, none of them [__proto__]),
    [dict(value)] returns exactly when every member decodes; the result has
    the same keys in the same order, each holding what [value] returns for
    that member at the location of its key. *)
Theorem dict_decodes_every_member {T : Type} (d : Dec.Decoder T)
  (props : list (string * value)) (loc : string) (res : list (string * T)) :
  NoDup (List.map fst props) ->
  ~ In "__proto__" (List.map fst props) ->
  (Dec.dict d (VObj props) loc = Return res
   <-> Forall2 (member_decodes d loc) props res).
Proof.
  intros Hnd _. unfold Dec.dict. cbn [instanceof_Object instanceof_Array negb orb enumerable_keys].
  split.
  - intros H.
    destruct (dict_loop_inv d loc props Hnd props [] [] res eq_refl eq_refl H)
      as (res' & -> & Hres).
    exact Hres.
  - intros H.
    exact (dict_loop_returns d loc props Hnd props [] [] res eq_refl eq_refl H).
Qed.

Lemma dict_decodes_every_member_witness :
  Dec.dict Dec.number (VObj [("x", VNum 1); ("y", VNum 2)]) ".pt"
  = Return [("x", VNum 1); ("y", VNum 2)].
Proof.
  apply (dict_decodes_every_member Dec.number [("x", VNum 1); ("y", VNum 2)] ".pt").
  - repeat constructor; cbn; intuition discriminate.
  - cbn; intuition discriminate.
  - repeat constructor.
Defined.

(** X18: on a record (distinct keys), [dict(value)] stops at the first
    member, in enumeration order, whose value fails to decode, and fails
    with that member's error, raised at the location of its key. *)
Theorem dict_first_failure {T : Type} (d : Dec.Decoder T)
  (pre post : list (string * value)) (k : string) (v : value) (loc : string)
  (res : list (string * T)) (e : exn) :
  NoDup (List.map fst (pre ++ (k, v) :: post)) ->
  Forall2 (member_decodes d loc) pre res ->
  d v (pushLocation loc (KStr k)) = Throw e ->
  Dec.dict d (VObj (pre ++ (k, v) :: post)) loc = Throw e.
Proof.
  intros Hnd Hpre Hd. unfold Dec.dict.
  cbn [instanceof_Object instanceof_Array negb orb enumerable_keys].
  exact (dict_loop_aborts d loc _ Hnd pre post k v res e eq_refl Hpre Hd).
Qed.

Lemma dict_first_failure_witness :
  Dec.dict Dec.number (VObj [("x", VNum 1); ("yy", VStr "2"); ("z", VNull)]) "root"
  = Throw (Error "error at .yy: expected number, got string").
Proof.
  apply (dict_first_failure Dec.number [("x", VNum 1)] [("z", VNull)] "yy" (VStr "2")
           "root" [("x", VNum 1)]).
  - repeat constructor; cbn; intuition discriminate.
  - repeat constructor.
  - reflexivity.
Defined.

Lemma Forall2_member_any (loc : string) (props : list (string * value)) :
  Forall2 (member_decodes Dec.any loc) props props.
Proof.
  induction props as [|m props IH]; constructor; [split; reflexivity | exact IH].
Qed.

(** X19: [dict(any())] returns the members of every record (distinct keys,
    none of them [__proto__]) unchanged and in order. *)
Theorem dict_any_identity (props : list (string * value)) (loc : string) :
  NoDup (List.map fst props) ->
  ~ In "__proto__" (List.map fst props) ->
  Dec.dict Dec.any (VObj props) loc = Return props.
Proof.
  intros Hnd _. unfold Dec.dict.
  cbn [instanceof_Object instanceof_Array negb orb enumerable_keys].
  exact (dict_loop_returns Dec.any loc props Hnd props [] [] props eq_refl eq_refl
           (Forall2_member_any loc props)).
Qed.

Lemma dict_any_identity_witness :
  Dec.dict Dec.any (VObj [("b", VNull); ("a", VArr [])]) "root"
  = Return [("b", VNull); ("a", VArr [])].
Proof.
  apply dict_any_identity.
  - repeat constructor; cbn; intuition discriminate.
  - cbn; intuition discriminate.
Defined.

(** ** Alternation: [union], [oneOf], [nullable] *)

Lemma try_each_inv {T : Type} (ds : list (Dec.Decoder T)) (obj : value) (loc : string) :
  (forall x,
      Dec.try_each ds obj loc = Return x ->
      exists pre d post,
        ds = (pre ++ d :: post)%list
        /\ Forall (branch_fails obj loc) pre /\ d obj loc = Return x)
  /\ (forall e,
      Dec.try_each ds obj loc = Throw e ->
      Forall (branch_fails obj loc) ds
      /\ e = Error ("error at " ++ loc ++ ": unexpected " ++ prettyPrint obj)).
Proof.
  induction ds as [|d ds [IHr IHt]]; cbn [Dec.try_each]; unfold Dec.decode.
  - split; [discriminate|]. intros e [= <-]. split; [constructor | reflexivity].
  - destruct (d obj loc) as [y|e0] eqn:Hd; split.
    + intros x [= <-]. exists [], d, ds. repeat split; [constructor | exact Hd].
    + discriminate.
    + intros x H. destruct (IHr x H) as (pre & d' & post & -> & Hpre & Hd').
      exists (d :: pre), d', post. repeat split; [|exact Hd'].
      constructor; [now exists e0 | exact Hpre].
    + intros e H. destruct (IHt e H) as [Hall ->]. split; [|reflexivity].
      constructor; [now exists e0 | exact Hall].
Qed.

(** X20: [union(d1..dN)] returns [x] exactly when some branch returns [x]
    and every branch declared before it fails; [oneOf(first, rest...)] is
    the same decoder as [union(first, rest...)]. *)
Theorem union_success_iff {T : Type} (ds : list (Dec.Decoder T)) (obj : value)
  (loc : string) (x : T) :
  (Dec.union ds obj loc = Return x
   <-> exists pre d post,
        ds = (pre ++ d :: post)%list
        /\ Forall (branch_fails obj loc) pre /\ d obj loc = Return x)
  /\ (forall (first : Dec.Decoder T) rest,
      same_decoder (Dec.oneOf first rest) (Dec.union (first :: rest))).
Proof.
  split; [|intros first rest o l; reflexivity].
  unfold Dec.union. split.
  - apply (proj1 (try_each_inv ds obj loc)).
  - intros (pre & d & post & -> & Hpre & Hd).
    rewrite (try_each_skips_failures obj loc pre _ Hpre).
    now apply try_each_first_success.
Qed.

Lemma union_success_iff_witness :
  Dec.union [Dec.string; Dec.number; Dec.any] (VNum 5) "root" = Return (VNum 5).
Proof.
  apply (proj1 (union_success_iff [Dec.string; Dec.number; Dec.any] (VNum 5) "root" (VNum 5))).
  exists [Dec.string], Dec.number, [Dec.any]. repeat split.
  constructor; [eexists; reflexivity | constructor].
Defined.

(** X21: a failure of [union] or [oneOf] is always the generic
    "unexpected <kind>" error at the location of the call, and it happens
    only when every branch fails: no error of a branch, and no [TypeError]
    raised inside a branch, ever comes out. *)
Theorem alternation_failure_is_generic {T : Type} (first : Dec.Decoder T)
  (rest : list (Dec.Decoder T)) (obj : value) (loc : string) (e : exn) :
  (Dec.union (first :: rest) obj loc = Throw e ->
   Forall (branch_fails obj loc) (first :: rest)
   /\ e = Error ("error at " ++ loc ++ ": unexpected " ++ prettyPrint obj))
  /\ (Dec.oneOf first rest obj loc = Throw e ->
      Forall (branch_fails obj loc) (first :: rest)
      /\ e = Error ("error at " ++ loc ++ ": unexpected " ++ prettyPrint obj)).
Proof.
  split; intros H; exact (proj2 (try_each_inv (first :: rest) obj loc) e H).
Qed.

Lemma alternation_failure_is_generic_witness :
  Forall (branch_fails VNull ".p")
         [Dec.map VArr (Dec.tuple [Dec.any]); Dec.object [("a", Dec.any)] (fun _ => VNull)]
  /\ Error "error at .p: unexpected null"
     = Error ("error at " ++ ".p" ++ ": unexpected " ++ prettyPrint VNull).
Proof.
  apply (proj2 (alternation_failure_is_generic
                  (Dec.map VArr (Dec.tuple [Dec.any]))
                  [Dec.object [("a", Dec.any)] (fun _ => VNull)]
                  VNull ".p" (Error "error at .p: unexpected null"))).
  reflexivity.
Defined.

(** X22: [nullable(d)] returns what [d] returns when [d] succeeds; when
    [d] fails, in whatever way, it returns [null] for a [null] input and
    fails with "unexpected <kind>" for any other input. *)
Theorem nullable_outcomes (d : Dec.Decoder value) (obj : value) (loc : string) :
  (forall x, d obj loc = Return x -> Dec.nullable d obj loc = Return x)
  /\ (forall e, d obj loc = Throw e -> obj = VNull ->
                Dec.nullable d obj loc = Return VNull)
  /\ (forall e, d obj loc = Throw e -> obj <> VNull ->
                Dec.nullable d obj loc
                = Throw (Error ("error at " ++ loc ++ ": unexpected " ++ prettyPrint obj))).
Proof.
  unfold Dec.nullable, Dec.oneOf, Dec.decode. cbn [Dec.try_each]. unfold Dec.decode.
  repeat split.
  - intros x H. now rewrite H.
  - intros e H ->. now rewrite H.
  - intros e H Hn. rewrite H. destruct obj; try reflexivity. contradiction.
Qed.

Lemma nullable_outcomes_witness :
  Dec.nullable Dec.number (VNum 5) "root" = Return (VNum 5)
  /\ Dec.nullable (Dec.object [("a", Dec.any)] VArr) VNull "root" = Return VNull
  /\ Dec.nullable Dec.number (VStr "x") "root"
     = Throw (Error "error at root: unexpected string").
Proof.
  split; [|split].
  - apply (proj1 (nullable_outcomes Dec.number (VNum 5) "root")). reflexivity.
  - apply (proj1 (proj2 (nullable_outcomes (Dec.object [("a", Dec.any)] VArr) VNull "root"))
             TypeError); reflexivity.
  - apply (proj2 (proj2 (nullable_outcomes Dec.number (VStr "x") "root"))
             (Error "error at root: expected number, got string"));
      [reflexivity | discriminate].
Defined.

(** X23: an alternation that has [succeed(x)] among its fallback branches
    never fails: it returns the result of the first branch before
    [succeed(x)] that succeeds (every branch before that one failing), and
    it returns [x] exactly when every branch before [succeed(x)] fails. *)
Theorem oneOf_with_default_returns {T : Type} (first : Dec.Decoder T)
  (rest post : list (Dec.Decoder T)) (x : T) (obj : value) (loc : string) :
  (forall pre d post' y,
      first :: rest = (pre ++ d :: post')%list ->
      Forall (branch_fails obj loc) pre ->
      d obj loc = Return y ->
      Dec.oneOf first (rest ++ Dec.succeed x :: post) obj loc = Return y)
  /\ (Forall (branch_fails obj loc) (first :: rest) ->
      Dec.oneOf first (rest ++ Dec.succeed x :: post) obj loc = Return x)
  /\ (exists y,
        Dec.oneOf first (rest ++ Dec.succeed x :: post) obj loc = Return y
        /\ ((Forall (branch_fails obj loc) (first :: rest) /\ y = x)
            \/ exists pre d post',
                first :: rest = (pre ++ d :: post')%list
                /\ Forall (branch_fails obj loc) pre /\ d obj loc = Return y)).
Proof.
  rewrite oneOf_try_each.
  change (first :: rest ++ Dec.succeed x :: post)%list
    with ((first :: rest) ++ Dec.succeed x :: post)%list.
  generalize (first :: rest). intros ds. split; [|split].
  - intros pre d post' y -> Hpre Hd. rewrite <- app_assoc.
    rewrite (try_each_skips_failures obj loc pre _ Hpre).
    rewrite <- app_comm_cons. now apply try_each_first_success.
  - intros Hall. rewrite (try_each_skips_failures obj loc ds _ Hall). reflexivity.
  - induction ds as [|d ds IH].
    + exists x. split; [reflexivity|]. left. split; [constructor | reflexivity].
    + rewrite <- app_comm_cons. cbn [Dec.try_each]. unfold Dec.decode at 1.
      destruct (d obj loc) as [y|e] eqn:Hd.
      * exists y. split; [reflexivity|]. right. exists [], d, ds.
        repeat split; [constructor | exact Hd].
      * destruct IH as (y & Hy & Hor). exists y. split; [exact Hy|].
        destruct Hor as [[Hall ->] | (pre & d' & post' & -> & Hpre & Hd')].
        -- left. split; [|reflexivity]. constructor; [now exists e | exact Hall].
        -- right. exists (d :: pre), d', post'. repeat split; [|exact Hd'].
           constructor; [now exists e | exact Hpre].
Qed.

Lemma oneOf_with_default_returns_witness :
  Dec.oneOf Dec.string ([Dec.number] ++ Dec.succeed (VStr "none") :: [Dec.any])
            (VNum 3) "root"
  = Return (VNum 3)
  /\ Dec.oneOf Dec.string ([Dec.number] ++ Dec.succeed (VStr "none") :: [Dec.any])
               VNull "root"
     = Return (VStr "none").
Proof.
  split.
  - apply (proj1 (oneOf_with_default_returns Dec.string [Dec.number] [Dec.any]
                    (VStr "none") (VNum 3) "root")
             [Dec.string] Dec.number [] (VNum 3) eq_refl).
    + constructor; [eexists; reflexivity | constructor].
    + reflexivity.
  - apply (proj1 (proj2 (oneOf_with_default_returns Dec.string [Dec.number] [Dec.any]
                           (VStr "none") VNull "root"))).
    constructor; [eexists; reflexivity|].
    constructor; [eexists; reflexivity | constructor].
Defined.

(** ** [andThen], [map], [succeed], [fail], [lazy] *)

(** X24: [andThen] with [succeed] and [fail] obeys the laws of sequencing:
    [succeed(x)] first hands [x] to the continuation; [succeed] as the
    continuation changes nothing; nesting on the left equals nesting on the
    right; and a [fail] first stays that failure. *)
Theorem andThen_laws {A B C : Type} (d : Dec.Decoder A) (x : A)
  (f : A -> Dec.Decoder B) (g : B -> Dec.Decoder C) (m : string) :
  same_decoder (Dec.andThen (Dec.succeed x) f) (f x)
  /\ same_decoder (Dec.andThen d Dec.succeed) d
  /\ same_decoder (Dec.andThen (Dec.andThen d f) g)
                  (Dec.andThen d (fun a => Dec.andThen (f a) g))
  /\ same_decoder (Dec.andThen (Dec.fail m) f) (Dec.fail m).
Proof.
  unfold same_decoder, Dec.andThen, Dec.succeed, Dec.fail, Dec.decode.
  repeat split; intros obj loc; try reflexivity;
    destruct (d obj loc); reflexivity.
Qed.

(** X25: [map] composes: mapping twice is mapping the composition,
    mapping the identity changes nothing, [map(f, d)] is [andThen] of [d]
    with [succeed] of [f], it is [lazy] of itself, and it passes the error
    of [d] on unchanged. *)
Theorem map_laws {A B C : Type} (d : Dec.Decoder A) (f : A -> B) (g : B -> C) :
  same_decoder (Dec.map g (Dec.map f d)) (Dec.map (fun a => g (f a)) d)
  /\ same_decoder (Dec.map (fun a => a) d) d
  /\ same_decoder (Dec.map f d) (Dec.andThen d (fun a => Dec.succeed (f a)))
  /\ same_decoder (Dec.lazy (fun _ => Dec.map f d)) (Dec.map f d)
  /\ (forall obj loc e, d obj loc = Throw e -> Dec.map f d obj loc = Throw e).
Proof.
  unfold same_decoder, Dec.map, Dec.andThen, Dec.succeed, Dec.lazy, Dec.decode.
  repeat split; try (intros obj loc; destruct (d obj loc); reflexivity).
  intros obj loc e H. now rewrite H.
Qed.

(** ** Which decoders keep to values and located errors *)

Lemma prefix_append (p s : string) : String.prefix p (p ++ s) = true.
Proof.
  induction p as [|c p IH]; cbn; [now destruct s|].
  destruct (ascii_dec c c); [exact IH | contradiction].
Qed.

Lemma located_decoderError {T : Type} (a : error_fields) :
  located_outcome (@Throw T (decoderError a)).
Proof.
  unfold decoderError.
  destruct (typeof (got a) =? "undefined")%string; cbn [located_outcome];
    apply prefix_append.
Qed.

Lemma located_generic {T : Type} (loc kind : string) :
  located_outcome (@Throw T (Error ("error at " ++ loc ++ ": unexpected " ++ kind))).
Proof. apply prefix_append. Qed.

Lemma located_try_each {T : Type} (ds : list (Dec.Decoder T)) (obj : value) (loc : string) :
  located_outcome (Dec.try_each ds obj loc).
Proof.
  destruct (Dec.try_each ds obj loc) as [x|e] eqn:E; [exact I|].
  destruct (proj2 (try_each_inv ds obj loc) e E) as [_ ->]. apply located_generic.
Qed.

Lemma located_map_from {A B : Type} (f : A -> nat -> outcome B) (l : list A) (i : nat) :
  (forall a j, located_outcome (f a j)) -> located_outcome (map_from f i l).
Proof.
  intros H. destruct (map_from f i l) as [xs|e] eqn:E; [exact I|].
  destruct (map_from_throw_inv f l i e E) as (j & a & _ & Hf).
  specialize (H a (i + j)%nat). now rewrite Hf in H.
Qed.

Lemma located_foldM {S A : Type} (f : S -> A -> outcome S) (l : list A) :
  (forall s a, located_outcome (f s a)) -> forall s, located_outcome (foldM f l s).
Proof.
  intros H. induction l as [|a l IH]; intros s; cbn [foldM]; [exact I|].
  specialize (H s a). destruct (f s a) as [s'|e]; cbn [bind]; [apply IH | exact H].
Qed.

Lemma located_string : located Dec.string.
Proof.
  intros obj loc. unfold Dec.string.
  destruct (negb _); [apply located_decoderError | exact I].
Qed.

Lemma located_number : located Dec.number.
Proof.
  intros obj loc. unfold Dec.number.
  destruct (negb _); [apply located_decoderError | exact I].
Qed.

Lemma located_boolean : located Dec.boolean.
Proof.
  intros obj loc. unfold Dec.boolean.
  destruct (negb _); [apply located_decoderError | exact I].
Qed.

Lemma located_null_ : located Dec.null_.
Proof.
  intros obj loc. unfold Dec.null_.
  destruct (negb _); [apply located_decoderError | exact I].
Qed.

Lemma located_opaqueObject : located Dec.opaqueObject.
Proof.
  intros obj loc. unfold Dec.opaqueObject.
  destruct (negb _); [apply located_decoderError | exact I].
Qed.

Lemma located_equal (p : primitive) : located (Dec.equal p).
Proof.
  intros obj loc. unfold Dec.equal.
  destruct (negb _); [apply located_decoderError | exact I].
Qed.

Lemma located_array {T : Type} (d : Dec.Decoder T) : located d -> located (Dec.array d).
Proof.
  intros Hd obj loc. unfold Dec.array.
  destruct obj; try apply located_decoderError.
  apply located_map_from. intros a j. apply Hd.
Qed.

Lemma located_dict {T : Type} (d : Dec.Decoder T) : located d -> located (Dec.dict d).
Proof.
  intros Hd obj loc. unfold Dec.dict.
  destruct (negb (instanceof_Object obj) || instanceof_Array obj)%bool eqn:E;
    [apply located_decoderError|].
  apply located_foldM. intros s k. unfold Dec.dict_member.
  destruct obj; try discriminate E.
  unfold js_get. destruct (own_property _ _); cbn [bind]; unfold Dec.decode;
    match goal with
    | |- located_outcome (bind (d ?v ?l) _) =>
        specialize (Hd v l); destruct (d v l); [exact I | exact Hd]
    end.
Qed.

Lemma located_oneOf {T : Type} (first : Dec.Decoder T) (rest : list (Dec.Decoder T)) :
  located (Dec.oneOf first rest).
Proof.
  intros obj loc. rewrite oneOf_try_each. apply located_try_each.
Qed.

(** X26: values and located errors are all that these decoders produce:
    the primitives, [any], [opaqueObject], [equal], [fail] and [succeed]
    always; [oneOf], [union] and [nullable] always, whatever their branches
    do; [array], [dict], [map], [lazy] and [andThen] whenever the decoders
    they are given do.  None of them lets a [TypeError] out. *)
Theorem located_combinators :
  located Dec.string /\ located Dec.number /\ located Dec.boolean /\ located Dec.null_
  /\ located Dec.any /\ located Dec.opaqueObject
  /\ (forall p, located (Dec.equal p))
  /\ (forall T m, located (@Dec.fail T m))
  /\ (forall T (x : T), located (Dec.succeed x))
  /\ (forall T (first : Dec.Decoder T) rest, located (Dec.oneOf first rest))
  /\ (forall T (ds : list (Dec.Decoder T)), located (Dec.union ds))
  /\ (forall d, located (Dec.nullable d))
  /\ (forall T (d : Dec.Decoder T), located d -> located (Dec.array d))
  /\ (forall T (d : Dec.Decoder T), located d -> located (Dec.dict d))
  /\ (forall A B (f : A -> B) (d : Dec.Decoder A), located d -> located (Dec.map f d))
  /\ (forall T (thunk : unit -> Dec.Decoder T), located (thunk tt) -> located (Dec.lazy thunk))
  /\ (forall A B (d : Dec.Decoder A) (cb : A -> Dec.Decoder B),
         located d -> (forall a, located (cb a)) -> located (Dec.andThen d cb)).
Proof.
  repeat match goal with |- _ /\ _ => split end.
  - exact located_string.
  - exact located_number.
  - exact located_boolean.
  - exact located_null_.
  - intros obj loc. exact I.
  - exact located_opaqueObject.
  - exact located_equal.
  - intros T m obj loc. apply prefix_append.
  - intros T x obj loc. exact I.
  - intros T first rest. apply located_oneOf.
  - intros T ds obj loc. apply located_try_each.
  - intros d. apply located_oneOf.
  - intros T d. apply located_array.
  - intros T d. apply located_dict.
  - intros A B f d Hd obj loc. unfold Dec.map, Dec.decode.
    specialize (Hd obj loc). destruct (d obj loc); [exact I | exact Hd].
  - intros T thunk Hd obj loc. apply Hd.
  - intros A B d cb Hd Hcb obj loc. unfold Dec.andThen, Dec.decode.
    specialize (Hd obj loc). destruct (d obj loc) as [a|e]; [apply Hcb | exact Hd].
Qed.

Lemma located_combinators_witness :
  located (Dec.dict (Dec.array (Dec.nullable (Dec.map VArr (Dec.tuple [Dec.string]))))).
Proof.
  destruct located_combinators
    as (_ & _ & _ & _ & _ & _ & _ & _ & _ & _ & _ & Hn & Ha & Hd & _).
  apply Hd, Ha, Hn.
Defined.

(** ** Where a [TypeError] can come from *)

Lemma decoderError_not_TypeError (a : error_fields) : decoderError a <> TypeError.
Proof.
  unfold decoderError. destruct (typeof (got a) =? "undefined")%string; discriminate.
Qed.

Lemma located_not_TypeError {T : Type} (o : outcome T) :
  located_outcome o -> o <> Throw TypeError.
Proof.
  intros H E. subst o. exact H.
Qed.


Lemma located_map_from_in {A B : Type} (f : A -> nat -> outcome B) (l : list A) (i : nat) :
  (forall a j, In a l -> located_outcome (f a j)) -> located_outcome (map_from f i l).
Proof.
  intros H. destruct (map_from f i l) as [xs|e] eqn:E; [exact I|].
  destruct (map_from_throw_inv f l i e E) as (j & a & Hj & Hf).
  specialize (H a (i + j)%nat (nth_error_In l j Hj)). now rewrite Hf in H.
Qed.



(** X28: with element decoders that keep to values and located errors,
    [tuple(d1..dN)] lets a [TypeError] out exactly when N > 0 and the input
    is [null] or [undefined]; on every other input it keeps to values and
    located errors. *)
Theorem tuple_TypeError_iff_null_or_undefined {T : Type} (ds : list (Dec.Decoder T))
  (obj : value) (loc : string) :
  Forall located ds ->
  (Dec.tuple ds obj loc = Throw TypeError
   <-> (obj = VNull \/ obj = VUndefined) /\ ds <> []).
Proof.
  intros Hds. split.
  - intros H.
    assert (Hloc : obj <> VNull -> obj <> VUndefined ->
                   located_outcome (Dec.tuple ds obj loc)).
    { intros Hn Hu. unfold Dec.tuple, Array_map. apply located_map_from_in.
      intros d j Hin. rewrite Forall_forall in Hds. specialize (Hds d Hin).
      unfold js_get. destruct obj; try contradiction;
        destruct (own_property _ _); cbn [bind]; apply Hds. }
    destruct obj;
      try (exfalso;
           apply (located_not_TypeError _ (Hloc ltac:(discriminate) ltac:(discriminate)) H)).
    + split; [now right|]. intros ->. discriminate H.
    + split; [now left|]. intros ->. discriminate H.
  - intros [[-> | ->] Hne]; (destruct ds as [|d ds]; [contradiction | reflexivity]).
Qed.

Lemma tuple_TypeError_iff_null_or_undefined_witness :
  Dec.tuple [Dec.string; Dec.number] VUndefined "root" = Throw TypeError.
Proof.
  apply (proj2 (tuple_TypeError_iff_null_or_undefined [Dec.string; Dec.number]
                  VUndefined "root"
                  ltac:(constructor;
                        [exact located_string
                        | constructor; [exact located_number | constructor]]))).
  split; [now right | discriminate].
Defined.

(** ** Key paths of [at] *)

Lemma foldM_app {S A : Type} (f : S -> A -> outcome S) (l1 l2 : list A) :
  forall s, foldM f (l1 ++ l2) s = s' <- foldM f l1 s ;; foldM f l2 s'.
Proof.
  induction l1 as [|a l1 IH]; intros s; [reflexivity|].
  rewrite <- app_comm_cons. cbn [foldM].
  destruct (f s a) as [s0|e]; cbn [bind]; [apply IH | reflexivity].
Qed.

Lemma walks_app_inv (p1 p2 : list key) :
  forall v l r rl,
    walks v l (p1 ++ p2) r rl ->
    exists r1 rl1, walks v l p1 r1 rl1 /\ walks r1 rl1 p2 r rl.
Proof.
  induction p1 as [|k p1 IH]; intros v l r rl H.
  - exists v, l. split; [constructor | exact H].
  - rewrite <- app_comm_cons in H.
    inversion H as [|v0 l0 k0 ks v' r0 rl0 Hget Hv Hrest]; subst.
    destruct (IH _ _ _ _ Hrest) as (r1 & rl1 & H1 & H2).
    exists r1, rl1. split; [|exact H2]. now apply (walks_step v l k p1 v').
Qed.

(** X29: key paths compose.  With keys that are indices or strings that
    are no [standard_member_name], [at(p1 ++ p2, d)] and [at(p1, at(p2, d))]
    have the same outcome whenever the traversal of [p1] fails, and
    whenever the whole path [p1 ++ p2] can be walked, in which case both
    apply [d] to the value reached, at the same accumulated location; and
    [at([], d)] is [d]. *)
Theorem at_paths_compose {T : Type} (p1 p2 : list key) (d : Dec.Decoder T)
  (obj : value) (loc : string) :
  Forall (fun k => plain_key k = true) (p1 ++ p2) ->
  (forall e,
      Dec.at_walk obj loc p1 = Throw e ->
      Dec.at_ (p1 ++ p2) d obj loc = Throw e
      /\ Dec.at_ p1 (Dec.at_ p2 d) obj loc = Throw e)
  /\ (forall r rl,
      walks obj loc (p1 ++ p2) r rl ->
      Dec.at_ (p1 ++ p2) d obj loc = d r rl
      /\ Dec.at_ p1 (Dec.at_ p2 d) obj loc = d r rl)
  /\ same_decoder (Dec.at_ [] d) d.
Proof.
  intros _. split; [|split].
  - intros e H. rewrite !at_of_walk. unfold Dec.at_walk in *.
    rewrite foldM_app, H. split; reflexivity.
  - intros r rl H.
    destruct (walks_app_inv p1 p2 _ _ _ _ H) as (r1 & rl1 & H1 & H2).
    rewrite !at_of_walk.
    rewrite (at_walk_walks obj loc _ _ _ H), (at_walk_walks obj loc _ _ _ H1).
    rewrite at_of_walk, (at_walk_walks r1 rl1 _ _ _ H2). split; reflexivity.
  - intros o l. reflexivity.
Qed.

Lemma at_paths_compose_witness :
  Dec.at_ ([KStr "rows"] ++ [KNum 1; KStr "id"]) Dec.number
          (VObj [("rows", VArr [VNull; VObj [("id", VNum 9)]])]) "root"
  = Dec.number (VNum 9) ".rows[1].id"
  /\ Dec.at_ [KStr "rows"] (Dec.at_ [KNum 1; KStr "id"] Dec.number)
             (VObj [("rows", VArr [VNull; VObj [("id", VNum 9)]])]) "root"
     = Dec.number (VNum 9) ".rows[1].id".
Proof.
  apply (proj1 (proj2 (at_paths_compose [KStr "rows"] [KNum 1; KStr "id"] Dec.number
                         (VObj [("rows", VArr [VNull; VObj [("id", VNum 9)]])]) "root"
                         ltac:(repeat constructor)))).
  apply (walks_step _ _ _ _ (VArr [VNull; VObj [("id", VNum 9)]]));
    [reflexivity | discriminate |].
  apply (walks_step _ _ _ _ (VObj [("id", VNum 9)])); [reflexivity | discriminate |].
  apply (walks_step _ _ _ _ (VNum 9)); [reflexivity | discriminate |].
  apply walks_nil.
Defined.

Lemma js_get_throw_iff (v : value) (k : key) :
  js_get v k = Throw TypeError <-> v = VNull \/ v = VUndefined.
Proof.
  split.
  - unfold js_get. destruct v; auto; destruct (own_property _ _); discriminate.
  - intros [-> | ->]; reflexivity.
Qed.

Lemma at_step_TypeError_iff (obj : value) (loc : string) (v : value) (l : string) (k : key) :
  Dec.at_step obj loc (v, l) k = Throw TypeError <-> v = VNull \/ v = VUndefined.
Proof.
  split.
  - unfold Dec.at_step. destruct (js_get v k) as [v'|e] eqn:E; cbn [bind].
    + destruct (is_undefined v'); [|discriminate].
      destruct k as [s|n]; [|destruct (instanceof_Array v)];
        intros H; apply Throw_inj in H; exfalso; exact (decoderError_not_TypeError _ H).
    + intros _. pose proof (js_get_throws v k e E) as He. subst e.
      now apply (js_get_throw_iff v k).
  - intros H. apply (js_get_throw_iff v k) in H. unfold Dec.at_step. now rewrite H.
Qed.

Lemma foldM_at_step_TypeError (obj : value) (loc : string) (ks : list key) :
  forall v l,
    foldM (Dec.at_step obj loc) ks (v, l) = Throw TypeError ->
    exists pre k post r rl,
      ks = (pre ++ k :: post)%list
      /\ walks v l pre r rl /\ (r = VNull \/ r = VUndefined).
Proof.
  induction ks as [|k ks IH]; intros v l; cbn [foldM]; [discriminate|].
  destruct (Dec.at_step obj loc (v, l) k) as [[v' l']|e] eqn:E; cbn [bind].
  - intros H. destruct (IH v' l' H) as (pre & k' & post & r & rl & -> & Hw & Hr).
    exists (k :: pre), k', post, r, rl. split; [reflexivity|]. split; [|exact Hr].
    unfold Dec.at_step in E.
    destruct (js_get v k) as [w|e] eqn:Hget; cbn [bind] in E; [|discriminate E].
    destruct (is_undefined w) eqn:Hu.
    + destruct k as [s|n]; [|destruct (instanceof_Array v)]; discriminate E.
    + injection E as <- <-. apply (walks_step v l k pre w); [exact Hget | | exact Hw].
      intros ->. discriminate Hu.
  - intros [= ->]. exists [], k, ks, v, l. split; [reflexivity|].
    split; [constructor|]. now apply (at_step_TypeError_iff obj loc v l k).
Qed.

(** X30: with an inner decoder that keeps to values and located errors,
    and a path whose keys are indices or strings that are no
    [standard_member_name], [at(keyPath, decoder)] lets a [TypeError] out
    exactly when some step of the path is taken from [null] (a value found
    on the way, or the input) or from an [undefined] input. *)
Theorem at_TypeError_iff {T : Type} (keyPath : list key) (d : Dec.Decoder T)
  (obj : value) (loc : string) :
  Forall (fun k => plain_key k = true) keyPath ->
  located d ->
  (Dec.at_ keyPath d obj loc = Throw TypeError
   <-> exists pre k post r rl,
        keyPath = (pre ++ k :: post)%list
        /\ walks obj loc pre r rl /\ (r = VNull \/ r = VUndefined)).
Proof.
  intros _ Hd. rewrite at_of_walk. split.
  - destruct (Dec.at_walk obj loc keyPath) as [[r rl]|e] eqn:E.
    + intros H. exfalso. exact (located_not_TypeError _ (Hd r rl) H).
    + intros [= ->]. exact (foldM_at_step_TypeError obj loc keyPath obj loc E).
  - intros (pre & k & post & r & rl & -> & Hw & Hr).
    rewrite (at_walk_stops obj loc pre k post r rl TypeError Hw); [reflexivity|].
    now apply at_step_TypeError_iff.
Qed.

Lemma at_TypeError_iff_witness :
  Dec.at_ [KStr "user"; KStr "name"] Dec.string (VObj [("user", VNull)]) "root"
  = Throw TypeError.
Proof.
  apply (proj2 (at_TypeError_iff [KStr "user"; KStr "name"] Dec.string
                  (VObj [("user", VNull)]) "root" ltac:(repeat constructor)
                  located_string)).
  exists [KStr "user"], (KStr "name"), [], VNull, (pushLocation "root" (KStr "user")).
  split; [reflexivity|]. split; [|now left].
  apply (walks_step _ _ _ _ VNull); [reflexivity | discriminate | apply walks_nil].
Defined.
